(** * LEOGPS [dopest.py]: Doppler estimation from carrier phase

    A shallow embedding of [dopest.dopest] (src/source/dopest.py) and the
    properties of it that the specification states.

    Modelling decisions, all taken from the source:
    - Python floats and the float64 entries of numpy arrays are Rocq's
      primitive binary64 floats; the element-wise numpy operations of line
      140 and 144 are the IEEE operations on them.
    - [np.polyfit] and [np.polyval] are library routines (LAPACK behind the
      first); they are parameters of the development.
    - [datetime] and [timedelta] values are integers counting microseconds;
      their arithmetic is that of the integers (the range checks of
      [datetime] are left out).
    - [tstart] and [tstop] are not used by the function and are left out;
      [inps] is only read at 'freq'.
    - The observation store is a dictionary of dictionaries of dictionaries.
      Only the innermost ones (the observation records) are ever assigned
      into (lines 104 and 149), so these are the objects that live on a
      heap and are referred to by address; the two outer levels are never
      assigned into and are values holding those addresses. *)

From Stdlib Require Import ZArith PrimFloat Uint63 Ascii.
From stdpp Require Import gmap strings list pretty.

Open Scope Z_scope.

(** ** Python values *)

Inductive value :=
  | VFloat (x : float)
  | VStr (s : string).

(** [flag == 'solo'] and the like: a string equal to the literal. *)
Definition is_str (v : value) (s : string) : bool :=
  match v with
  | VStr s' => bool_decide (s' = s)
  | VFloat _ => false
  end.

(** [float(n)] for a non-negative [int] below 2^53 (exact there). *)
Definition float_of_int (n : Z) : float := PrimFloat.of_uint63 (Uint63.of_Z n).

(** The literal [0.01] of line 139, as the binary64 value Python reads. *)
Definition delta : float := 0x1.47ae147ae147bp-7%float.

(** ** datetime.timedelta, counted in microseconds *)

(** [td.seconds]: the seconds field of the normalised
    (days, seconds, microseconds) triple, between 0 and 86399. *)
Definition td_seconds (td : Z) : Z := (td / 1000000) mod 86400.

(** ** Outcomes of a call *)

Inductive exn := KeyError | IndexError | TypeError | LinAlgError.

Inductive outcome (A : Type) :=
  | Ok (a : A)
  | ReturnFalse          (* [return False], line 125 *)
  | Raise (e : exn).
Arguments Ok {A} a.
Arguments ReturnFalse {A}.
Arguments Raise {A} e.

(** ** The heap of observation records *)

Abbreviation loc := nat (only parsing).
Abbreviation record := (gmap string value) (only parsing).
Abbreviation heap := (list (gmap string value)) (only parsing).
Abbreviation satdict := (gmap Z nat) (only parsing).
(** Epochs in dictionary (insertion) order, each with its satellites. *)
Abbreviation store := (list (Z * gmap Z nat)) (only parsing).

(** The value stored under key [k] of the record at address [l]. *)
Definition field (h : heap) (l : loc) (k : string) : option value :=
  h !! l ≫= (.!! k).

(** Computations on the heap that return, return False or raise. *)
Definition M (A : Type) : Type := heap → outcome A * heap.

Definition ret {A} (a : A) : M A := λ h, (Ok a, h).

Definition bind {A B} (m : M A) (k : A → M B) : M B := λ h,
  match m h with
  | (Ok a, h') => k a h'
  | (ReturnFalse, h') => (ReturnFalse, h')
  | (Raise e, h') => (Raise e, h')
  end.

Definition return_false {A} : M A := λ h, (ReturnFalse, h).
Definition raise {A} (e : exn) : M A := λ h, (Raise e, h).

Notation "'let*' x := m 'in' k" := (bind m (λ x, k))
  (at level 10, x pattern, m at level 100, k at level 200).

(** [d[k]] on a dictionary held as a value: KeyError when absent. *)
Definition subscript {A} (o : option A) : M A :=
  match o with
  | Some a => ret a
  | None => raise KeyError
  end.

(** [rec[k]] on the record at [l]. *)
Definition getfield (l : loc) (k : string) : M value := λ h,
  subscript (field h l k) h.

(** [k in rec], then [rec[k]]: the value when present. *)
Definition findfield (l : loc) (k : string) : M (option value) := λ h,
  (Ok (field h l k), h).

(** [rec[k] = v] on the record at [l]. *)
Definition setitem (l : loc) (k : string) (v : value) : M unit := λ h,
  (Ok tt, alter (insert k v) l h).

(** ** The store *)

(** [rnx[t]]: dictionary keys are unique, the first entry is the entry. *)
Fixpoint epoch_lookup (t : Z) (rnx : store) : option satdict :=
  match rnx with
  | [] => None
  | (t', sats) :: rnx' => if decide (t' = t) then Some sats else epoch_lookup t rnx'
  end.

(** The address of the record [rnx[t][p]], when both keys exist. *)
Definition slot (rnx : store) (t p : Z) : option loc :=
  epoch_lookup t rnx ≫= (.!! p).

(** Every record address the store holds, in order. *)
Definition store_locs (rnx : store) : list loc :=
  rnx ≫= (λ e, (map_to_list e.2).*2).

(** No dangling address: every record the store refers to is on the heap. *)
Definition wf_store (rnx : store) (h : heap) : Prop :=
  Forall (λ l, (l < length h)%nat) (store_locs rnx).

(** *** copy.deepcopy

    Every distinct record object gets one fresh copy (the memo of
    [deepcopy] keeps shared records shared), and the two outer levels are
    rebuilt with the addresses of the copies. *)
Definition copy_record (s : gmap nat nat * heap) (l : loc) : gmap nat nat * heap :=
  match s.1 !! l with
  | Some _ => s
  | None => (<[l := length s.2]> s.1, s.2 ++ [s.2 !!! l])
  end.

Definition rename (memo : gmap nat nat) (l : loc) : loc := default l (memo !! l).

Definition rename_store (memo : gmap nat nat) (rnx : store) : store :=
  (λ e : Z * gmap Z nat, (e.1, rename memo <$> e.2)) <$> rnx.

Definition deepcopy (rnx : store) : M store := λ h,
  let s := foldl copy_record (∅, h) (store_locs rnx) in
  (Ok (rename_store s.1 rnx), s.2).

(** ** Keys *)

(** ['L'+str(f)] and ['D'+str(f)]. *)
Definition Lkey (f : Z) : string := "L" +:+ pretty f.
Definition Dkey (f : Z) : string := "D" +:+ pretty f.

(** The invalid-value sentinel of line 104. *)
Definition sentinel : value := VStr "NaN".

(** The test of line 103, negated: the flag is neither 'solo' nor 'slip'. *)
Definition interpolable (flag : value) : bool :=
  negb (is_str flag "solo" || is_str flag "slip").

(** [range(a, b)] *)
Definition range (a b : Z) : list Z := (λ i, a + Z.of_nat i) <$> seq 0 (Z.to_nat (b - a)).

(** ** dopest *)

Section Dopest.
(** [np.polyfit(x, y, deg)] may raise; [np.polyval(c, x)] at one point. *)
Variable polyfit : list float → list float → Z → exn + list float.
Variable polyval : list float → float → float.
(** [rnxstep], a timedelta. *)
Variable rnxstep : Z.

(** [np.linspace(0, n-1, n)]: the floats 0.0, 1.0, ..., n-1. *)
Definition linspace0 (n : nat) : list float :=
  (λ i, float_of_int (Z.of_nat i)) <$> seq 0 n.

(** [np.array(L)] as a float64 array; a string among the values makes
    the arithmetic of [np.polyfit] raise TypeError. *)
Fixpoint float_array (L : list value) : option (list float) :=
  match L with
  | [] => Some []
  | VFloat x :: L' => cons x <$> float_array L'
  | VStr _ :: _ => None
  end.

(** Lines 131-144: the rates of one arc. *)
Definition arc_rates (L : list value) : exn + list float :=
  match float_array L with
  | None => inl TypeError
  | Some L =>
      let N := linspace0 (length L) in
      match polyfit N L 19 with
      | inl e => inl e
      | inr coeff =>
          let N_delta := (λ x, x + delta)%float <$> N in
          let L_delta := polyval coeff <$> N_delta in
          inr (zip_with
                 (λ l ld, (l - ld) / (delta * float_of_int (td_seconds rnxstep)))%float
                 L L_delta)
      end
  end.

(** Lines 148-150: [ks] is what is left of [reversed(range(0,len(D)))],
    [d] the counter. *)
Fixpoint write_back (rnxout : store) (t p f : Z) (D : list float)
    (ks : list nat) (d : nat) : M unit :=
  match ks with
  | [] => ret tt
  | k :: ks' =>
      let* v := match D !! d with Some v => ret v | None => raise IndexError end in
      let* sats := subscript (epoch_lookup (t - Z.of_nat k * rnxstep) rnxout) in
      let* l := subscript (sats !! p) in
      let* _ := setitem l (Dkey f) (VFloat v) in
      write_back rnxout t p f D ks' (S d)
  end.

(** Lines 131-150. *)
Definition estimate (rnxout : store) (t p f : Z) (L : list value) : M unit :=
  match arc_rates L with
  | inl e => raise e
  | inr D => write_back rnxout t p f D (reverse (seq 0 (length D))) 0
  end.

(** Lines 96-125: the record of satellite [p] at one epoch, at address [l]. *)
Definition visit_record (l : loc) (f : Z) (st : list value * bool) :
    M (list value * bool) :=
  let '(L, dopp_condition) := st in
  let* flag := getfield l "flag" in
  if is_str flag "solo" || is_str flag "slip" then
    let* _ := setitem l (Dkey f) sentinel in
    ret (L, false)
  else
    let L := if is_str flag "start" then [] else L in
    let dopp_condition := if is_str flag "start" then false else dopp_condition in
    let dopp_condition := if is_str flag "none" then false else dopp_condition in
    let dopp_condition := if is_str flag "end" then true else dopp_condition in
    let* o := findfield l (Lkey f) in
    match o with
    | Some v => ret (L ++ [v], dopp_condition)
    | None => return_false
    end.

(** Lines 96-153: the body of [for t in rnxout]. *)
Definition visit (rnxout : store) (f p t : Z) (st : list value * bool) :
    M (list value * bool) :=
  let* sats := subscript (epoch_lookup t rnxout) in
  let* st :=
    match sats !! p with
    | Some l => visit_record l f st
    | None => ret st
    end in
  if st.2 then
    let* _ := estimate rnxout t p f st.1 in
    ret ([], false)
  else ret st.

(** Line 90: [for t in rnxout]. *)
Fixpoint time_loop (rnxout : store) (f p : Z) (ts : list Z)
    (st : list value * bool) : M (list value * bool) :=
  match ts with
  | [] => ret st
  | t :: ts' =>
      let* st' := visit rnxout f p t st in
      time_loop rnxout f p ts' st'
  end.

(** Line 85: [for p in goodsats], with [L = []] at the top of the body;
    [dopp_condition] lives across the iterations. *)
Fixpoint sat_loop (rnxout : store) (f : Z) (ps : list Z) (dopp_condition : bool) : M bool :=
  match ps with
  | [] => ret dopp_condition
  | p :: ps' =>
      let* st := time_loop rnxout f p rnxout.*1 ([], dopp_condition) in
      sat_loop rnxout f ps' st.2
  end.

(** Line 82: [for f in range(1,1+freqnum)]. *)
Fixpoint freq_loop (rnxout : store) (goodsats : list Z) (fs : list Z)
    (dopp_condition : bool) : M bool :=
  match fs with
  | [] => ret dopp_condition
  | f :: fs' =>
      let* dc := sat_loop rnxout f goodsats dopp_condition in
      freq_loop rnxout goodsats fs' dc
  end.

(** Lines 76-156; [freqnum] is [inps['freq']]. *)
Definition dopest (rnxdata : store) (goodsats : list Z) (freqnum : Z) : M store :=
  let* rnxout := deepcopy rnxdata in
  let* _ := freq_loop rnxout goodsats (range 1 (1 + freqnum)) false in
  ret rnxout.

End Dopest.

(** ** Write-back, declaratively *)

(** The assignment [rec['D'+str(f)] = v] on the record at address [w.1]. *)
Definition assign (f : Z) (h : heap) (w : nat * float) : heap :=
  alter (insert (Dkey f) (VFloat w.2)) w.1 h.

(** The epoch of buffer entry [i] of an arc of [n] entries that ends at
    [t]: end epoch minus (n-1-i) steps. *)
Definition arc_epoch (rnxstep t : Z) (n i : nat) : Z :=
  t - Z.of_nat (n - 1 - i) * rnxstep.

(** ** What a run may change *)

(** A rate value as the engine writes it: the sentinel or a float. *)
Definition is_rate (o : option value) : Prop :=
  o = Some sentinel ∨ ∃ x, o = Some (VFloat x).

(** [h'] is [h] but for rates assigned under keys of [Ks] in records at
    addresses of [Ls]. *)
Definition rates_written (Ls : nat → Prop) (Ks : string → Prop) (h h' : heap) : Prop :=
  length h' = length h ∧
  ∀ l k, field h' l k = field h l k ∨ (Ls l ∧ Ks k ∧ is_rate (field h' l k)).

(** The final heap of a computation is related to the initial one. *)
Definition preserves {A} (R : heap → heap → Prop) (m : M A) : Prop :=
  ∀ h, R h (m h).2.

(** The rate keys of a run over [freqnum] bands. *)
Definition rate_key (freqnum : Z) (k : string) : Prop :=
  ∃ f, 1 ≤ f ≤ freqnum ∧ k = Dkey f.

(** Any rate key. *)
Definition any_rate_key (k : string) : Prop := ∃ f, k = Dkey f.

(** The record at [l] is to be appended to the buffer (its flag is neither
    'solo' nor 'slip') and has no phase value for band [f]. *)
Definition missing_phase (h : heap) (l : nat) (f : Z) : Prop :=
  ∃ flag, field h l "flag" = Some flag ∧ interpolable flag = true ∧
          field h l (Lkey f) = None.

(** The state of [deepcopy] part-way: the heap has only grown from [h0],
    and the memo sends addresses of [h0] to distinct fresh copies. *)
Definition copy_inv (h0 : heap) (s : gmap nat nat * heap) : Prop :=
  (∃ ext, s.2 = h0 ++ ext) ∧
  (∀ l l', s.1 !! l = Some l' →
     (l < length h0)%nat ∧ (length h0 ≤ l' < length s.2)%nat ∧ s.2 !! l' = h0 !! l) ∧
  (∀ l1 l2 l', s.1 !! l1 = Some l' → s.1 !! l2 = Some l' → l1 = l2).

(** ** Two runs side by side

    Run A works on records at addresses [l] of [Ls], run B on records at
    [ρ l]. The heaps are in step when the two agree on what the engine
    reads (everything but rate keys), and every field is either the same
    in both or still what it was when the runs started (from [hA0] and
    [hB0]). *)
Definition in_step (ρ : nat → nat) (Ls : nat → Prop) (hA0 hB0 hA hB : heap) : Prop :=
  (∀ l, Ls l → (l < length hA)%nat ∧ (ρ l < length hB)%nat) ∧
  (∀ l k, Ls l → ¬ any_rate_key k → field hA l k = field hB (ρ l) k) ∧
  (∀ l k, Ls l →
     field hA l k = field hB (ρ l) k ∨
     (field hA l k = field hA0 l k ∧ field hB (ρ l) k = field hB0 (ρ l) k)).

Definition same_outcome {A B} (RV : A → B → Prop) (a : outcome A) (b : outcome B) : Prop :=
  match a, b with
  | Ok x, Ok y => RV x y
  | ReturnFalse, ReturnFalse => True
  | Raise e, Raise e' => e = e'
  | _, _ => False
  end.

Definition related (S : heap → heap → Prop) {A B} (RV : A → B → Prop)
    (mA : M A) (mB : M B) : Prop :=
  ∀ hA hB, S hA hB →
    same_outcome RV (mA hA).1 (mB hB).1 ∧ S (mA hA).2 (mB hB).2.

(** ** The rate as the specification words it (section 4.1, step 4)

    [(phase[i] - fitted(index[i] + delta)) / (delta * step_seconds)], with
    [step_seconds] the epoch step expressed in seconds. *)
Definition spec_rate (polyval : list float → float → float) (coeff : list float)
    (step_seconds : float) (i : nat) (phase : float) : float :=
  ((phase - polyval coeff (float_of_int (Z.of_nat i) + delta)) / (delta * step_seconds))%float.

(** ** A stand-in for numpy, to run the model on examples

    [sample_polyfit] returns the constant polynomial through the last
    sample (a least-squares solution for one sample), [horner] evaluates a
    coefficient list, highest degree first. *)
Definition sample_polyfit (N L : list float) (deg : Z) : exn + list float :=
  inr (replicate (Z.to_nat deg) 0%float ++ [List.last L 0%float]).

Definition horner (c : list float) (x : float) : float :=
  foldl (λ y pv, y * x + pv)%float 0%float c.

(** ** Sample sessions

    One satellite (PRN 1), one band, epochs one second apart; the record
    of epoch number [i] is at address [i] (at [base + i] in a copy). *)
Definition obs (phase : float) (flag : string) : gmap string value :=
  {[ "L1" := VFloat phase; "flag" := VStr flag ]}.

Definition session_at (base n : nat) : store :=
  (λ i : nat, (Z.of_nat i * 1000000, ({[ 1 := (base + i)%nat ]} : gmap Z nat)))
    <$> seq 0 n.

Definition session (n : nat) : store := session_at 0 n.

(** A record without a phase value. *)
Definition obs_no_phase (flag : string) : gmap string value :=
  {[ "flag" := VStr flag ]}.

(** ** Which records a run may reach *)

(** The addresses of the records of satellite [p]. *)
Definition sat_locs (rnx : store) (p : Z) (l : nat) : Prop :=
  ∃ t, slot rnx t p = Some l.

(** The addresses of the records of the satellites of [goodsats]. *)
Definition good_locs (rnx : store) (goodsats : list Z) (l : nat) : Prop :=
  ∃ p, p ∈ goodsats ∧ sat_locs rnx p l.

(** The rate keys of the bands of [fs]. *)
Definition rate_key_of (fs : list Z) (k : string) : Prop :=
  ∃ f, f ∈ fs ∧ k = Dkey f.

(** One epoch with two satellites, PRN 1 at address [a] and PRN 2 at [b]. *)
Definition two_sats (a b : nat) : store :=
  [(0, ({[ 1 := a; 2 := b ]} : gmap Z nat))].

(** A record without a flag. *)
Definition obs_no_flag (phase : float) : gmap string value :=
  {[ "L1" := VFloat phase ]}.

(** ** Which rate a record may hold

    [h'] is [h] but for rate fields that now hold a float, or the sentinel
    in a record flagged 'solo' or 'slip'. *)
Definition marks_written (h h' : heap) : Prop :=
  length h' = length h ∧
  ∀ l k, field h' l k = field h l k ∨
    (any_rate_key k ∧
     ((∃ x, field h' l k = Some (VFloat x)) ∨
      (field h' l k = Some sentinel ∧
       ∃ flag, field h l "flag" = Some flag ∧ interpolable flag = false))).

(** The record at [l] holds the rate that the visit of the record itself
    assigns for band [f]: a rate value when it is flagged 'solo' or
    'slip', a float when it is flagged 'end'. *)
Definition populated (h : heap) (l : nat) (f : Z) : Prop :=
  ∀ flag, field h l "flag" = Some flag →
    (interpolable flag = false → is_rate (field h l (Dkey f))) ∧
    (is_str flag "end" = true → ∃ x, field h l (Dkey f) = Some (VFloat x)).

(** ** Complete arcs

    The flag of entry [i] of a complete arc of [n] entries: 'start' on
    the first, 'end' on the last, 'none' between. *)
Definition arc_flag (n i : nat) : string :=
  if decide (i = 0%nat) then "start" else if decide (S i = n) then "end" else "none".

(** * The report files (pubplt.py): fixed-width fields

    The writers format every number by hand, on the text that [str] gives
    for it. Text is a list of characters; the text of the number is the
    input of a formatter. *)

(** A formatter returns, raises ValueError ([str.index] with no match),
    or has used up the iterations it was given for its [while] loops. *)
Inductive result (A : Type) :=
  | Done (a : A)
  | ValueError
  | NoFuel.
Arguments Done {A} a.
Arguments ValueError {A}.
Arguments NoFuel {A}.

#[global] Instance result_ret : MRet result := λ A a, Done a.
#[global] Instance result_bind : MBind result := λ A B k m,
  match m with
  | Done a => k a
  | ValueError => ValueError
  | NoFuel => NoFuel
  end.

(** The first position of [c] in [s], if any. *)
Fixpoint first_index (c : ascii) (s : list ascii) : option nat :=
  match s with
  | [] => None
  | a :: s' => if decide (a = c) then Some 0%nat else S <$> first_index c s'
  end.

(** [s.index(c)] *)
Definition index (c : ascii) (s : list ascii) : result nat :=
  match first_index c s with
  | Some i => Done i
  | None => ValueError
  end.

(** [while cond(st): st = body(st)], at most [fuel] iterations. *)
Fixpoint while {St : Type} (fuel : nat) (cond : St → bool) (body : St → result St)
    (st : St) : result St :=
  match fuel with
  | O => if cond st then NoFuel else Done st
  | S fuel' => if cond st then st' ← body st; while fuel' cond body st' else Done st
  end.

(** [while len(pos[dot:]) < frac: pos = pos + '0'] *)
Definition pad_zeros (frac fuel dot : nat) (pos : list ascii) : result (list ascii) :=
  while fuel (λ pos, bool_decide (length (drop dot pos) < frac)%nat)
    (λ pos, mret (pos ++ ["0"%char])) pos.

(** [while len(pos[:dot]) < int: pos = ' ' + pos; dot = pos.index('.')] *)
Definition pad_left (int fuel : nat) (st : list ascii * nat) : result (list ascii * nat) :=
  while fuel (λ st : list ascii * nat, bool_decide (length (take st.2 st.1) < int)%nat)
    (λ st, let pos := " "%char :: st.1 in
           dot ← index "." pos; mret (pos, dot)) st.

(** gps_report lines 88-95 and 101-108 ([frac] 7, [int] 9), leo_results
    lines 274-281 ([frac] 4, [int] 10): cut the text after [frac - 1]
    decimals, fill up with zeros, pad the integer part to [int]. *)
Definition fixed_field (frac int fuel : nat) (pos : list ascii) : result (list ascii) :=
  dot ← index "." pos;
  let pos := if decide (frac < length (drop dot pos))%nat
             then take (dot + frac) pos else pos in
  pos ← pad_zeros frac fuel dot pos;
  st ← pad_left int fuel (pos, dot);
  mret st.1.

(** gps_report lines 87-97 and 100-110: one coordinate, followed by a
    blank. *)
Definition gps_coord (fuel : nat) (pos : list ascii) : result (list ascii) :=
  pos ← fixed_field 7 9 fuel pos; mret (pos ++ [" "%char]).

(** leo_results lines 273-282: one component of a vector. *)
Definition leo_value (fuel : nat) (svalue : list ascii) : result (list ascii) :=
  fixed_field 4 10 fuel svalue.

(** leo_results lines 287-310: the clock bias, on the text of
    [value/299792458.0]. *)
Definition leo_clock (fuel : nat) (svalue : list ascii) : result (list ascii) :=
  dot ← index "." svalue;
  svalue ←
    (if bool_decide ("e"%char ∈ svalue) then
       edot ← index "e" svalue;
       let svalue1 := take dot svalue in
       let svalue2 := drop dot (take edot svalue) in
       let svalue2 := if decide (7 < length svalue2)%nat then take 7 svalue2
                      else svalue2 in
       let svalue3 := drop edot svalue in
       mret (svalue1 ++ svalue2 ++ svalue3)
     else
       let svalue := if decide (11 < length (drop dot svalue))%nat
                     then take (dot + 11) svalue else svalue in
       pad_zeros 11 fuel dot svalue);
  st ← pad_left 7 fuel (svalue, dot);
  mret st.1.

(** gps_report lines 112-116: the clock bias, on the text [b] that the
    ['%.9E'] format gives. *)
Definition gps_clock (fuel : nat) (b : list ascii) : result (list ascii) :=
  dot ← index "." b;
  st ← pad_left 2 fuel (b, dot);
  mret st.1.

(** The text of a string literal. *)
Definition text (s : string) : list ascii := String.list_ascii_of_string s.

(** gps_report lines 78-81: the PRN on two digits. *)
Definition prn_label (p : Z) : list ascii :=
  if decide (p < 10) then "0"%char :: text (pretty p) else text (pretty p).

(** gps_report lines 86-97 and 99-110: [for coord in ['x','y','z']], on
    the texts of the three values. *)
Fixpoint coord_loop (fuel : nat) (line : list ascii) (values : list (list ascii)) :
    result (list ascii) :=
  match values with
  | [] => mret line
  | pos :: values' =>
      pos ← gps_coord fuel pos;
      coord_loop fuel (line ++ pos) values'
  end.

(** gps_report lines 76-120: the line of satellite [p], from the texts of
    its position, its velocity and its clock bias. *)
Definition gps_line (fuel : nat) (p : Z) (position velocity : list (list ascii))
    (b : list ascii) : result (list ascii) :=
  let pstr := prn_label p in
  let line := "G"%char :: pstr ++ [" "%char] in
  line ← coord_loop fuel line position;
  line ← coord_loop fuel line velocity;
  b ← gps_clock fuel b;
  mret (line ++ b ++ [" "%char; "010"%char]).

(** A text with a '.', whose part before the first '.' has at most [n]
    characters. *)
Definition fits (n : nat) (s : list ascii) : Prop :=
  ∃ a b, s = a ++ "."%char :: b ∧ ("."%char ∉ a) ∧ (length a ≤ n)%nat.

(** * Properties *)

(** ** The monad *)

Lemma bind_Ok {A B} (m : M A) (k : A → M B) h a h' :
  m h = (Ok a, h') → bind m k h = k a h'.
Proof. unfold bind. by intros ->. Qed.

Lemma bind_ReturnFalse {A B} (m : M A) (k : A → M B) h h' :
  m h = (ReturnFalse, h') → bind m k h = (ReturnFalse, h').
Proof. unfold bind. by intros ->. Qed.

Lemma bind_ret_l {A B} (a : A) (k : A → M B) : bind (ret a) k = k a.
Proof. reflexivity. Qed.

Lemma bind_raise_l {A B} e (k : A → M B) : bind (raise e) k = raise e.
Proof. reflexivity. Qed.

Lemma bind_return_false_l {A B} (k : A → M B) : bind return_false k = return_false.
Proof. reflexivity. Qed.

Lemma bind_setitem {B} l key v (k : unit → M B) h :
  bind (setitem l key v) k h = k tt (alter (insert key v) l h).
Proof. reflexivity. Qed.

Lemma subscript_Some {A} (a : A) : subscript (Some a) = ret a.
Proof. reflexivity. Qed.

Lemma subscript_None {A} : subscript (@None A) = raise KeyError.
Proof. reflexivity. Qed.

(** One step of symbolic execution. *)
Ltac mstep :=
  repeat first
    [ rewrite bind_ret_l | rewrite bind_raise_l | rewrite bind_return_false_l
    | rewrite subscript_Some | rewrite subscript_None | rewrite bind_setitem ].

Lemma bind_assoc {A B C} (m : M A) (k1 : A → M B) (k2 : B → M C) h :
  bind (bind m k1) k2 h = bind m (λ a, bind (k1 a) k2) h.
Proof. unfold bind. by destruct (m h) as [[a| |e] h']. Qed.

Lemma bind_ext {A B} (m : M A) (k k' : A → M B) h :
  (∀ a h', k a h' = k' a h') → bind m k h = bind m k' h.
Proof. intros H. unfold bind. by destruct (m h) as [[a| |e] h']. Qed.

Ltac mstep_in H :=
  repeat first
    [ rewrite bind_ret_l in H | rewrite bind_raise_l in H
    | rewrite bind_return_false_l in H
    | rewrite subscript_Some in H | rewrite subscript_None in H
    | rewrite bind_setitem in H ].

(** ** Records on the heap *)

Lemma field_setitem h l k v l' k' :
  field (alter (insert k v) l h) l' k'
  = if decide (l' = l ∧ k' = k ∧ (l < length h)%nat) then Some v else field h l' k'.
Proof.
  unfold field. destruct (decide (l' = l)) as [->|Hl].
  - rewrite list_lookup_alter_eq. destruct (h !! l) as [r|] eqn:Hr; simpl.
    + apply lookup_lt_Some in Hr as Hlt. destruct (decide (k' = k)) as [->|Hk].
      * rewrite lookup_insert_eq. by rewrite decide_True.
      * rewrite lookup_insert_ne by done. rewrite decide_False; [done | tauto].
    + apply lookup_ge_None in Hr. rewrite decide_False; [done | lia].
  - rewrite list_lookup_alter_ne by done. rewrite decide_False; [done | tauto].
Qed.

(** Two heaps of one length with the same fields hold the same records. *)
Lemma lookup_eq_of_fields (h h' : heap) l :
  length h' = length h → (∀ k, field h' l k = field h l k) → h' !! l = h !! l.
Proof.
  intros Hlen Hf. unfold field in Hf.
  destruct (h !! l) as [r|] eqn:Hr.
  - destruct (h' !! l) as [r'|] eqn:Hr'.
    + f_equal. apply map_eq. intros k. apply (Hf k).
    + apply lookup_lt_Some in Hr. apply lookup_ge_None in Hr'. lia.
  - apply lookup_ge_None in Hr. apply lookup_ge_None. lia.
Qed.

(** ** Keys *)

Lemma Lkey_ne_Dkey f f' : Lkey f ≠ Dkey f'.
Proof. unfold Lkey, Dkey. intros H. discriminate H. Qed.

Lemma flag_ne_Dkey f : "flag" ≠ Dkey f.
Proof. unfold Dkey. intros H. discriminate H. Qed.

Lemma elem_of_range a b i : i ∈ range a b ↔ a ≤ i < b.
Proof.
  unfold range. rewrite list_elem_of_fmap. split.
  - intros (n & -> & Hn). apply elem_of_seq in Hn. lia.
  - intros H. exists (Z.to_nat (i - a)). split; [lia|]. apply elem_of_seq. lia.
Qed.

(** ** timedelta *)

Lemma td_seconds_whole (s : Z) : 0 ≤ s < 86400 → td_seconds (s * 1000000) = s.
Proof.
  intros H. unfold td_seconds. rewrite Z.div_mul by lia. apply Z.mod_small. lia.
Qed.

(** ** Arc estimation (lines 131-144) *)

Section ArcRates.
Variable polyfit : list float → list float → Z → exn + list float.
Variable polyval : list float → float → float.
Variable rnxstep : Z.

Lemma float_array_length L Lf : float_array L = Some Lf → length Lf = length L.
Proof.
  revert Lf. induction L as [|[x|s] L IH]; intros Lf H; simpl in H.
  - by injection H as <-.
  - destruct (float_array L) as [Lf'|]; [|done]. injection H as <-.
    simpl. f_equal. by apply IH.
  - done.
Qed.

(** What the code computes for an arc: one degree-19 fit over the indices
    0 .. n-1, and for index [i] the quotient of line 144, whose divisor is
    built from [rnxstep.seconds]. *)
Lemma arc_rates_inr L D :
  arc_rates polyfit polyval rnxstep L = inr D →
  ∃ Lf coeff,
    float_array L = Some Lf ∧
    polyfit (linspace0 (length L)) Lf 19 = inr coeff ∧
    length D = length L ∧
    ∀ i x, Lf !! i = Some x →
      D !! i = Some (spec_rate polyval coeff (float_of_int (td_seconds rnxstep)) i x).
Proof.
  unfold arc_rates. destruct (float_array L) as [Lf|] eqn:HL; [|done].
  pose proof (float_array_length _ _ HL) as Hlen. rewrite Hlen.
  destruct (polyfit _ Lf 19) as [e|coeff] eqn:Hfit; [done|].
  intros [= <-]. exists Lf, coeff. split_and!; [done | done | |].
  - rewrite length_zip_with_l_eq; [done|].
    unfold linspace0. by rewrite !length_fmap, length_seq.
  - intros i x Hi. apply lookup_lt_Some in Hi as Hlt.
    rewrite lookup_zip_with, Hi. simpl.
    unfold linspace0. rewrite !list_lookup_fmap, lookup_seq_lt by lia. done.
Qed.

(** For a step of a whole number of seconds below one day the divisor is
    the step in seconds. *)
Lemma arc_rates_whole_seconds (s : Z) L D :
  0 ≤ s < 86400 → rnxstep = s * 1000000 →
  arc_rates polyfit polyval rnxstep L = inr D →
  ∃ Lf coeff,
    float_array L = Some Lf ∧
    polyfit (linspace0 (length L)) Lf 19 = inr coeff ∧
    length D = length L ∧
    ∀ i x, Lf !! i = Some x →
      D !! i = Some (spec_rate polyval coeff (float_of_int s) i x).
Proof.
  intros Hs Hstep H. apply arc_rates_inr in H.
  by rewrite Hstep, td_seconds_whole in H.
Qed.

End ArcRates.

(** C1 (failing input). With a step of half a second [rnxstep.seconds] is
    0: the code divides by 0.01 * 0.0, as it does for a step of zero. With
    the sample fit the rates of the arc 1.0, 2.0 come out as -inf and nan,
    where the formula with the step expressed in seconds (0.5) gives
    -200.0 and 0.0. *)
Theorem arc_rates_half_second_step :
  td_seconds 500000 = 0 ∧
  (∀ polyfit polyval L,
     arc_rates polyfit polyval 500000 L = arc_rates polyfit polyval 0 L) ∧
  arc_rates sample_polyfit horner 500000 [VFloat 1; VFloat 2]
    = inr [neg_infinity; nan] ∧
  (∃ coeff, sample_polyfit (linspace0 2) [1; 2]%float 19 = inr coeff ∧
     imap (spec_rate horner coeff 0.5%float) [1; 2]%float = [(-200)%float; 0%float]).
Proof.
  split; [reflexivity|]. split; [intros; reflexivity|].
  split; [vm_compute; reflexivity|].
  eexists. split; [reflexivity|]. vm_compute. reflexivity.
Qed.

(** ** Write-back (lines 145-150) *)

Section WriteBack.
Variable rnxstep : Z.
Variable rnxout : store.
Variables t p f : Z.
Variable D : list float.

Lemma write_back_Ok ks ls d h :
  Forall2 (λ k l, slot rnxout (t - Z.of_nat k * rnxstep) p = Some l) ks ls →
  (length ks + d ≤ length D)%nat →
  write_back rnxstep rnxout t p f D ks d h
  = (Ok tt, foldl (assign f) h (zip ls (drop d D))).
Proof.
  intros Hsl. revert d h. induction Hsl as [|k l ks ls Hk _ IH]; intros d h Hlen.
  - done.
  - simpl in Hlen. destruct (D !! d) as [v|] eqn:Hv.
    2:{ apply lookup_ge_None in Hv. lia. }
    cbn [write_back]. rewrite Hv. unfold slot in Hk.
    destruct (epoch_lookup (t - Z.of_nat k * rnxstep) rnxout) as [sats|]; [|done].
    change (sats !! p = Some l) in Hk. mstep. rewrite Hk. mstep.
    rewrite IH by lia. rewrite (drop_S _ _ _ Hv). done.
Qed.

Lemma write_back_outcome ks d h :
  (length ks + d ≤ length D)%nat →
  ((write_back rnxstep rnxout t p f D ks d h).1 = Ok tt ∧
     Forall (λ k, is_Some (slot rnxout (t - Z.of_nat k * rnxstep) p)) ks) ∨
  ((write_back rnxstep rnxout t p f D ks d h).1 = Raise KeyError ∧
     Exists (λ k, slot rnxout (t - Z.of_nat k * rnxstep) p = None) ks).
Proof.
  revert d h. induction ks as [|k ks IH]; intros d h Hlen.
  - left. by split.
  - simpl in Hlen. destruct (D !! d) as [v|] eqn:Hv.
    2:{ apply lookup_ge_None in Hv. lia. }
    cbn [write_back]. rewrite Hv.
    assert (Hslot : slot rnxout (t - Z.of_nat k * rnxstep) p
                    = epoch_lookup (t - Z.of_nat k * rnxstep) rnxout ≫= (.!! p)) by done.
    destruct (epoch_lookup (t - Z.of_nat k * rnxstep) rnxout) as [sats|] eqn:Hs.
    2:{ mstep. right. split; [done|]. by left. }
    change (slot rnxout (t - Z.of_nat k * rnxstep) p = sats !! p) in Hslot.
    mstep.
    destruct (sats !! p) as [l|] eqn:Hl.
    2:{ mstep. right. split; [done|]. by left. }
    mstep.
    destruct (IH (S d) (alter (insert (Dkey f) (VFloat v)) l h)) as [[-> HF]|[-> HE]]; [lia | |].
    + left. split; [done|]. constructor; [|done]. by rewrite Hslot.
    + right. split; [done|]. by right.
Qed.

End WriteBack.

(** ** Sequences of assignments *)

Lemma length_foldl_assign f ws h : length (foldl (assign f) h ws) = length h.
Proof.
  revert h. induction ws as [|w ws IH]; intros h; [done|].
  simpl. rewrite IH. unfold assign. by rewrite length_alter.
Qed.

Lemma field_foldl_assign_other f ws h l k :
  ¬ (l ∈ ws.*1 ∧ k = Dkey f) →
  field (foldl (assign f) h ws) l k = field h l k.
Proof.
  revert h. induction ws as [|w ws IH]; intros h Hn; [done|].
  simpl. rewrite IH.
  - unfold assign. rewrite field_setitem. rewrite decide_False; [done|].
    intros (-> & -> & _). apply Hn. split; [|done]. simpl. left.
  - intros [Hin ->]. apply Hn. split; [|done]. simpl. by right.
Qed.

Lemma field_foldl_assign f ws h i l x :
  NoDup ws.*1 → ws !! i = Some (l, x) → (l < length h)%nat →
  field (foldl (assign f) h ws) l (Dkey f) = Some (VFloat x).
Proof.
  revert h i. induction ws as [|w ws IH]; intros h i Hnd Hi Hl; [done|].
  simpl in Hnd. apply NoDup_cons in Hnd as [Hnotin Hnd].
  destruct i as [|i]; simpl in Hi.
  - injection Hi as ->. simpl. rewrite field_foldl_assign_other.
    + unfold assign. simpl. rewrite field_setitem. by rewrite decide_True.
    + simpl in Hnotin. tauto.
  - simpl. eapply IH; [done | done |]. unfold assign. by rewrite length_alter.
Qed.

(** ** Lookups of the write-back, and what it writes *)

Lemma slot_in_store rnx t p l : slot rnx t p = Some l → l ∈ store_locs rnx.
Proof.
  unfold slot, store_locs. induction rnx as [|[t' sats] rnx IH]; simpl; [done|].
  rewrite elem_of_app. destruct (decide (t' = t)) as [->|Hne].
  - simpl. intros Hl. left. apply list_elem_of_fmap. exists (p, l). split; [done|].
    by apply elem_of_map_to_list.
  - intros H. right. by apply IH.
Qed.

Section Estimate.
Variable polyfit : list float → list float → Z → exn + list float.
Variable polyval : list float → float → float.
Variable rnxstep : Z.
Variable rnxout : store.


(** The addresses of the records of [p] at the epochs of an arc of [n]
    entries that ends at [t], oldest first. *)
Lemma arc_targets t p (n : nat) :
  (∀ k : nat, (k < n)%nat → is_Some (slot rnxout (t - Z.of_nat k * rnxstep) p)) →
  ∃ ls, length ls = n ∧
    (∀ i : nat, (i < n)%nat → slot rnxout (arc_epoch rnxstep t n i) p = ls !! i) ∧
    Forall2 (λ k l, slot rnxout (t - Z.of_nat k * rnxstep) p = Some l)
      (reverse (seq 0 n)) ls.
Proof.
  intros Hall.
  assert (∃ ls, Forall2 (λ k l, slot rnxout (t - Z.of_nat k * rnxstep) p = Some l)
                 (reverse (seq 0 n)) ls) as [ls Hls].
  { apply Forall_exists_Forall2_l, Forall_reverse, Forall_seq.
    intros k Hk. apply Hall. lia. }
  exists ls. pose proof (Forall2_length _ _ _ Hls) as Hlen.
  rewrite length_reverse, length_seq in Hlen. split_and!; [done | | done].
  intros i Hi. destruct (ls !! i) as [l|] eqn:Hl.
  2:{ apply lookup_ge_None in Hl. lia. }
  assert (Hk : reverse (seq 0 n) !! i = Some (n - 1 - i)%nat).
  { rewrite reverse_lookup by (rewrite length_seq; lia).
    rewrite length_seq. rewrite lookup_seq_lt by lia. f_equal. lia. }
  by apply (Forall2_lookup_lr _ _ _ _ _ _ Hls Hk Hl).
Qed.

End Estimate.


(** ** One record (lines 96-125) *)

Lemma visit_record_no_flag l f st h :
  field h l "flag" = None → visit_record l f st h = (Raise KeyError, h).
Proof.
  intros Hfl. destruct st as [L dc]. unfold visit_record, bind, getfield.
  by rewrite Hfl.
Qed.

Lemma visit_record_sentinel l f L dc h flag :
  field h l "flag" = Some flag → interpolable flag = false →
  visit_record l f (L, dc) h
  = (Ok (L, false), alter (insert (Dkey f) sentinel) l h).
Proof.
  intros Hfl Hi. unfold visit_record, bind, getfield. rewrite Hfl. simpl.
  unfold interpolable in Hi. apply negb_false_iff in Hi. by rewrite Hi.
Qed.

Lemma visit_record_append l f L dc h flag v :
  field h l "flag" = Some flag → interpolable flag = true →
  field h l (Lkey f) = Some v →
  visit_record l f (L, dc) h
  = (Ok ((if is_str flag "start" then [] else L) ++ [v],
         if is_str flag "end" then true
         else if is_str flag "none" then false
         else if is_str flag "start" then false else dc), h).
Proof.
  intros Hfl Hi Hv. unfold visit_record, bind, getfield, findfield.
  rewrite Hfl. simpl. unfold interpolable in Hi. apply negb_true_iff in Hi.
  rewrite Hi. by rewrite Hv.
Qed.

Lemma visit_record_missing_phase l f st h flag :
  field h l "flag" = Some flag → interpolable flag = true →
  field h l (Lkey f) = None →
  visit_record l f st h = (ReturnFalse, h).
Proof.
  intros Hfl Hi Hv. destruct st as [L dc].
  unfold visit_record, bind, getfield, findfield.
  rewrite Hfl. simpl. unfold interpolable in Hi. apply negb_true_iff in Hi.
  rewrite Hi. by rewrite Hv.
Qed.

Lemma slot_Some rnx t p l :
  slot rnx t p = Some l ↔ ∃ sats, epoch_lookup t rnx = Some sats ∧ sats !! p = Some l.
Proof.
  unfold slot. destruct (epoch_lookup t rnx) as [sats|]; simpl.
  - split; [eauto|]. by intros (? & [= <-] & ?).
  - split; [done|]. by intros (? & ? & ?).
Qed.

Section Visit.
Variable polyfit : list float → list float → Z → exn + list float.
Variable polyval : list float → float → float.
Variable rnxstep : Z.
Variable rnxout : store.

(** C2. An arc that is completed at end epoch [t] with a buffer of [n]
    entries (the [n-1] collected before and the phase of the 'end' record)
    is written back as the [n] assignments of rate [i] to the record of
    [p] at epoch [t - (n-1-i)*step], i = 0 .. n-1: entry [n-1] goes to [t]
    itself. When these are [n] different records each holds its own rate
    afterwards, and nothing else on the heap has changed. *)
Theorem visit_end_writes f p t l v L dc h st h' :
  wf_store rnxout h →
  slot rnxout t p = Some l →
  field h l "flag" = Some (VStr "end") →
  field h l (Lkey f) = Some v →
  visit polyfit polyval rnxstep rnxout f p t (L, dc) h = (Ok st, h') →
  let n := S (length L) in
  st = ([], false) ∧
  ∃ D ls,
    arc_rates polyfit polyval rnxstep (L ++ [v]) = inr D ∧
    length D = n ∧ length ls = n ∧
    (∀ i : nat, (i < n)%nat → slot rnxout (arc_epoch rnxstep t n i) p = ls !! i) ∧
    ls !! (n - 1)%nat = Some l ∧
    h' = foldl (assign f) h (zip ls D) ∧
    (NoDup ls → ∀ i li x, ls !! i = Some li → D !! i = Some x →
       field h' li (Dkey f) = Some (VFloat x)) ∧
    (∀ l' k, ¬ (l' ∈ ls ∧ k = Dkey f) → field h' l' k = field h l' k).
Proof.
  intros Hwf Hslot Hflag Hv Hrun n.
  apply slot_Some in Hslot as Hs. destruct Hs as (sats & Hsats & Hl).
  unfold visit in Hrun. rewrite Hsats in Hrun. mstep_in Hrun. rewrite Hl in Hrun.
  rewrite (bind_Ok _ _ _ _ _ (visit_record_append l f L dc h _ v Hflag eq_refl Hv))
    in Hrun.
  cbn [is_str bool_decide fst snd] in Hrun. simpl in Hrun.
  unfold estimate in Hrun.
  destruct (arc_rates polyfit polyval rnxstep (L ++ [v])) as [e|D] eqn:HD.
  { by rewrite bind_raise_l in Hrun. }
  pose proof (arc_rates_inr _ _ _ _ _ HD) as (_ & _ & _ & _ & HlenD & _).
  rewrite length_app in HlenD. simpl in HlenD.
  assert (HnD : length D = n) by (unfold n; lia).
  destruct (write_back_outcome rnxstep rnxout t p f D
              (reverse (seq 0 (length D))) 0 h) as [[Hr HF]|[Hr HE]].
  { rewrite length_reverse, length_seq. lia. }
  2:{ unfold bind in Hrun.
      destruct (write_back rnxstep rnxout t p f D (reverse (seq 0 (length D))) 0 h)
        as [[[]| |e] h1]; simpl in Hr; by try discriminate. }
  rewrite Forall_reverse, Forall_seq in HF.
  destruct (arc_targets rnxstep rnxout t p (length D)) as (ls & Hlenls & Hls & HF2).
  { intros k Hk. apply HF. lia. }
  rewrite (bind_Ok _ _ _ _ _ (write_back_Ok rnxstep rnxout t p f D _ ls 0 h HF2
             ltac:(rewrite length_reverse, length_seq; lia))) in Hrun.
  rewrite drop_0 in Hrun. injection Hrun as <- <-.
  split; [done|]. exists D, ls. rewrite HnD in *.
  assert (Hlast : ls !! (n - 1)%nat = Some l).
  { rewrite <- Hls by (unfold n; lia). unfold arc_epoch.
    replace (t - Z.of_nat (n - 1 - (n - 1)) * rnxstep) with t by lia. done. }
  split_and!; try done.
  - intros Hnd i li x Hi Hx. eapply (field_foldl_assign f _ h i li x).
    + rewrite fst_zip by lia. done.
    + by apply lookup_zip_Some.
    + rewrite <- Hls in Hi by (apply lookup_lt_Some in Hi; lia).
      apply slot_in_store in Hi. unfold wf_store in Hwf.
      rewrite Forall_forall in Hwf. by apply Hwf.
  - intros l' k Hn. apply field_foldl_assign_other.
    intros [Hin ->]. apply Hn. split; [|done].
    rewrite fst_zip in Hin by lia. done.
Qed.

End Visit.

Lemma visit_end_writes_witness :
  let h := [obs 1 "start"; obs 2 "end"] in
  let h' := (visit sample_polyfit horner 1000000 (session 2) 1 1 1000000
               ([VFloat 1], false) h).2 in
  let n := 2%nat in
  ([], false) = (@nil value, false) ∧
  ∃ D ls,
    arc_rates sample_polyfit horner 1000000 ([VFloat 1] ++ [VFloat 2]) = inr D ∧
    length D = n ∧ length ls = n ∧
    (∀ i : nat, (i < n)%nat →
       slot (session 2) (arc_epoch 1000000 1000000 n i) 1 = ls !! i) ∧
    ls !! (n - 1)%nat = Some 1%nat ∧
    h' = foldl (assign 1) h (zip ls D) ∧
    (NoDup ls → ∀ i li x, ls !! i = Some li → D !! i = Some x →
       field h' li (Dkey 1) = Some (VFloat x)) ∧
    (∀ l' k, ¬ (l' ∈ ls ∧ k = Dkey 1) → field h' l' k = field h l' k).
Proof.
  intros h h' n.
  apply (visit_end_writes sample_polyfit horner 1000000 (session 2) 1 1 1000000
           1%nat (VFloat 2) [VFloat 1] false h ([], false) h').
  - unfold wf_store. vm_compute. repeat constructor.
  - vm_compute; reflexivity.
  - vm_compute; reflexivity.
  - vm_compute; reflexivity.
  - vm_compute; reflexivity.
Defined.

(** ** The frame of a run *)

Lemma rates_written_refl Ls Ks h : rates_written Ls Ks h h.
Proof. split; [done|]. intros l k. by left. Qed.

Lemma rates_written_trans Ls Ks h1 h2 h3 :
  rates_written Ls Ks h1 h2 → rates_written Ls Ks h2 h3 → rates_written Ls Ks h1 h3.
Proof.
  intros [Hlen1 H1] [Hlen2 H2]. split; [congruence|]. intros l k.
  destruct (H2 l k) as [->|?]; [|by right]. apply H1.
Qed.

Lemma rates_written_weaken (Ls Ls' : nat → Prop) (Ks Ks' : string → Prop) h h' :
  (∀ l, Ls l → Ls' l) → (∀ k, Ks k → Ks' k) →
  rates_written Ls Ks h h' → rates_written Ls' Ks' h h'.
Proof.
  intros HL HK [Hlen H]. split; [done|]. intros l k.
  destruct (H l k) as [->|(? & ? & ?)]; [by left|]. right. auto.
Qed.

Lemma rates_written_setitem (Ls : nat → Prop) (Ks : string → Prop) h l k v :
  Ls l → Ks k → is_rate (Some v) →
  rates_written Ls Ks h (alter (insert k v) l h).
Proof.
  intros HL HK Hv. split; [by rewrite length_alter|]. intros l' k'.
  rewrite field_setitem. case_decide as Hd; [|by left].
  destruct Hd as (-> & -> & _). by right.
Qed.

Section Preserves.
Variable R : heap → heap → Prop.
Hypothesis R_refl : ∀ h, R h h.
Hypothesis R_trans : ∀ h1 h2 h3, R h1 h2 → R h2 h3 → R h1 h3.

Lemma preserves_ret {A} (a : A) : preserves R (ret a).
Proof. intros h. apply R_refl. Qed.

Lemma preserves_raise {A} e : preserves R (@raise A e).
Proof. intros h. apply R_refl. Qed.

Lemma preserves_return_false {A} : preserves R (@return_false A).
Proof. intros h. apply R_refl. Qed.

Lemma preserves_subscript {A} (o : option A) : preserves R (subscript o).
Proof. destruct o; [apply preserves_ret | apply preserves_raise]. Qed.

Lemma preserves_getfield l k : preserves R (getfield l k).
Proof. intros h. unfold getfield. apply preserves_subscript. Qed.

Lemma preserves_findfield l k : preserves R (findfield l k).
Proof. intros h. apply R_refl. Qed.

Lemma preserves_bind {A B} (m : M A) (k : A → M B) :
  preserves R m → (∀ a, preserves R (k a)) → preserves R (bind m k).
Proof.
  intros Hm Hk h. unfold bind. specialize (Hm h).
  destruct (m h) as [[a| |e] h']; simpl in *; [|done|done].
  eapply R_trans; [done|]. apply Hk.
Qed.

End Preserves.

Section Frame.
Variable polyfit : list float → list float → Z → exn + list float.
Variable polyval : list float → float → float.
Variable rnxstep : Z.
Variable rnxout : store.

Let Ls : nat → Prop := λ l, l ∈ store_locs rnxout.

Local Ltac frame_bind :=
  apply preserves_bind; [apply rates_written_trans | |].

Lemma write_back_frame t p f D ks d :
  preserves (rates_written Ls (eq (Dkey f)))
    (write_back rnxstep rnxout t p f D ks d).
Proof.
  revert d. induction ks as [|k ks IH]; intros d.
  { apply preserves_ret, rates_written_refl. }
  cbn [write_back]. frame_bind.
  { destruct (D !! d); [apply preserves_ret | apply preserves_raise];
      apply rates_written_refl. }
  intros v.
  destruct (epoch_lookup (t - Z.of_nat k * rnxstep) rnxout) as [sats|] eqn:Hs.
  2:{ intros h. apply rates_written_refl. }
  mstep. destruct (sats !! p) as [l|] eqn:Hl.
  2:{ intros h. apply rates_written_refl. }
  mstep. intros h. rewrite bind_setitem.
  eapply rates_written_trans; [|apply IH].
  apply rates_written_setitem; [|done|right; eauto].
  apply (slot_in_store _ (t - Z.of_nat k * rnxstep) p), slot_Some. eauto.
Qed.

Lemma estimate_frame t p f L :
  preserves (rates_written Ls (eq (Dkey f)))
    (estimate polyfit polyval rnxstep rnxout t p f L).
Proof.
  unfold estimate. destruct (arc_rates _ _ _ L).
  - apply preserves_raise, rates_written_refl.
  - apply write_back_frame.
Qed.

Lemma visit_record_frame l f st :
  Ls l → preserves (rates_written Ls (eq (Dkey f))) (visit_record l f st).
Proof.
  intros Hl. destruct st as [L dc]. unfold visit_record. frame_bind.
  { apply preserves_getfield, rates_written_refl. }
  intros flag. destruct (is_str flag "solo" || is_str flag "slip").
  - intros h. rewrite bind_setitem.
    apply rates_written_setitem; [done | done | by left].
  - frame_bind; [apply preserves_findfield, rates_written_refl|].
    intros [v|]; [apply preserves_ret | apply preserves_return_false];
      apply rates_written_refl.
Qed.

Lemma visit_frame f p t st :
  preserves (rates_written Ls (eq (Dkey f)))
    (visit polyfit polyval rnxstep rnxout f p t st).
Proof.
  unfold visit. destruct (epoch_lookup t rnxout) as [sats|] eqn:Hs.
  2:{ intros h. apply rates_written_refl. }
  mstep. frame_bind.
  { destruct (sats !! p) as [l|] eqn:Hl.
    - apply visit_record_frame. apply (slot_in_store _ t p), slot_Some. eauto.
    - apply preserves_ret, rates_written_refl. }
  intros st'. destruct (st'.2).
  - frame_bind; [apply estimate_frame|].
    intros _. apply preserves_ret, rates_written_refl.
  - apply preserves_ret, rates_written_refl.
Qed.

Lemma time_loop_frame f p ts st :
  preserves (rates_written Ls (eq (Dkey f)))
    (time_loop polyfit polyval rnxstep rnxout f p ts st).
Proof.
  revert st. induction ts as [|t ts IH]; intros st; cbn [time_loop].
  - apply preserves_ret, rates_written_refl.
  - frame_bind; [apply visit_frame | apply IH].
Qed.

Lemma sat_loop_frame f ps dc :
  preserves (rates_written Ls (eq (Dkey f)))
    (sat_loop polyfit polyval rnxstep rnxout f ps dc).
Proof.
  revert dc. induction ps as [|p ps IH]; intros dc; cbn [sat_loop].
  - apply preserves_ret, rates_written_refl.
  - frame_bind; [apply time_loop_frame | intros st; apply IH].
Qed.

Lemma freq_loop_frame goodsats (Ks : string → Prop) fs dc :
  (∀ f, f ∈ fs → Ks (Dkey f)) →
  preserves (rates_written Ls Ks)
    (freq_loop polyfit polyval rnxstep rnxout goodsats fs dc).
Proof.
  revert dc. induction fs as [|f fs IH]; intros dc HK; cbn [freq_loop].
  - apply preserves_ret, rates_written_refl.
  - frame_bind.
    + intros h. eapply rates_written_weaken; [| |apply sat_loop_frame]; [done|].
      intros k <-. apply HK. left.
    + intros dc'. apply IH. intros f' Hf'. apply HK. by right.
Qed.

End Frame.

(** ** deepcopy *)

Lemma copy_inv_init h0 : copy_inv h0 (∅, h0).
Proof.
  split_and!; simpl.
  - exists []. by rewrite app_nil_r.
  - intros l l' H. by rewrite lookup_empty in H.
  - intros l1 l2 l' H. by rewrite lookup_empty in H.
Qed.

Lemma copy_record_inv h0 s l :
  copy_inv h0 s → (l < length h0)%nat →
  copy_inv h0 (copy_record s l) ∧
  is_Some ((copy_record s l).1 !! l) ∧
  (∀ l1 l1', s.1 !! l1 = Some l1' → (copy_record s l).1 !! l1 = Some l1').
Proof.
  intros (Hext & Hmemo & Hinj) Hl. destruct s as [memo h]. simpl in *.
  unfold copy_record. simpl. destruct (memo !! l) as [l'|] eqn:Hml.
  { split_and!; [by split_and! | simpl; by rewrite Hml | done]. }
  destruct Hext as [ext ->]. simpl.
  split_and!.
  - split_and!; simpl.
    + exists (ext ++ [(h0 ++ ext) !!! l]). by rewrite app_assoc.
    + intros l1 l1'. rewrite lookup_insert.
      assert (Hcell : (h0 ++ ext) !!! l = h0 !!! l)
        by (by apply lookup_total_app_l).
      rewrite (length_app (h0 ++ ext)). simpl.
      case_decide as Hd.
      * intros [= <-]. subst l1. split_and!; [done | rewrite length_app; lia | lia |].
        rewrite lookup_app_r by lia. rewrite Nat.sub_diag. simpl. f_equal.
        rewrite Hcell. symmetry. by apply list_lookup_lookup_total_lt.
      * intros H1. destruct (Hmemo _ _ H1) as (? & ? & Hc).
        split_and!; [done | lia | lia |]. by rewrite lookup_app_l by lia.
    + intros l1 l2 l'. rewrite !lookup_insert.
      repeat case_decide; subst; intros H1 H2; simplify_eq; try done.
      * destruct (Hmemo _ _ H2) as (_ & ? & _). lia.
      * destruct (Hmemo _ _ H1) as (_ & ? & _). lia.
      * by eapply Hinj.
  - by rewrite lookup_insert_eq.
  - intros l1 l1' H1. rewrite lookup_insert_ne; [done|]. congruence.
Qed.

Lemma copy_fold_inv h0 ls s :
  copy_inv h0 s → Forall (λ l, (l < length h0)%nat) ls →
  copy_inv h0 (foldl copy_record s ls) ∧
  (∀ l, l ∈ ls → is_Some ((foldl copy_record s ls).1 !! l)) ∧
  (∀ l l', s.1 !! l = Some l' → (foldl copy_record s ls).1 !! l = Some l').
Proof.
  intros Hinv Hls. revert s Hinv.
  induction Hls as [|l ls Hl _ IH]; intros s Hinv; simpl.
  { split_and!; [done | | done]. intros l Hin. by apply elem_of_nil in Hin. }
  destruct (copy_record_inv h0 s l Hinv Hl) as (Hinv' & [l' Hl'] & Hmono).
  destruct (IH _ Hinv') as (Hinv'' & Hall & Hmono').
  split_and!; [done | |].
  - intros l0 [->|Hin]%elem_of_cons; [|by apply Hall].
    exists l'. by apply Hmono'.
  - intros l1 l1' H1. by apply Hmono', Hmono.
Qed.

Lemma deepcopy_spec rnx h0 :
  wf_store rnx h0 →
  ∃ memo h1,
    deepcopy rnx h0 = (Ok (rename_store memo rnx), h1) ∧
    copy_inv h0 (memo, h1) ∧
    ∀ l, l ∈ store_locs rnx → is_Some (memo !! l).
Proof.
  intros Hwf. unfold deepcopy.
  destruct (copy_fold_inv h0 (store_locs rnx) (∅, h0) (copy_inv_init h0) Hwf)
    as (Hinv & Hall & _).
  destruct (foldl copy_record (∅, h0) (store_locs rnx)) as [memo h1].
  by exists memo, h1.
Qed.

Lemma fst_rename_store memo rnx : (rename_store memo rnx).*1 = rnx.*1.
Proof.
  unfold rename_store. rewrite <- list_fmap_compose. by apply list_fmap_ext.
Qed.

Lemma epoch_lookup_rename memo rnx t :
  epoch_lookup t (rename_store memo rnx)
  = (λ sats : gmap Z nat, rename memo <$> sats) <$> epoch_lookup t rnx.
Proof.
  induction rnx as [|[t' sats] rnx IH]; simpl; [done|].
  by destruct (decide (t' = t)).
Qed.

Lemma slot_rename memo rnx t p :
  slot (rename_store memo rnx) t p = rename memo <$> slot rnx t p.
Proof.
  unfold slot. rewrite epoch_lookup_rename.
  destruct (epoch_lookup t rnx) as [sats|]; simpl; [|done].
  apply lookup_fmap.
Qed.

Lemma elem_of_store_locs rnx l :
  l ∈ store_locs rnx ↔ ∃ t sats p, (t, sats) ∈ rnx ∧ sats !! p = Some l.
Proof.
  unfold store_locs. rewrite list_elem_of_bind. split.
  - intros ([t sats] & Hl & Hin). simpl in Hl.
    apply list_elem_of_fmap in Hl as ([p l'] & -> & Hpl).
    apply elem_of_map_to_list in Hpl. by exists t, sats, p.
  - intros (t & sats & p & Hin & Hl). exists (t, sats). split; [|done].
    simpl. apply list_elem_of_fmap. exists (p, l). split; [done|].
    by apply elem_of_map_to_list.
Qed.

Lemma elem_of_store_locs_rename memo rnx l' :
  l' ∈ store_locs (rename_store memo rnx) ↔
  ∃ l, l ∈ store_locs rnx ∧ l' = rename memo l.
Proof.
  rewrite elem_of_store_locs. split.
  - intros (t & sats' & p & Hin & Hl). unfold rename_store in Hin.
    apply list_elem_of_fmap in Hin as ([t0 sats] & [= -> ->] & Hin). simpl in Hl.
    rewrite lookup_fmap in Hl. destruct (sats !! p) as [l|] eqn:Hp; [|done].
    injection Hl as <-. exists l. split; [|done].
    apply elem_of_store_locs. by exists t0, sats, p.
  - intros (l & Hin & ->). apply elem_of_store_locs in Hin as (t & sats & p & Hin & Hl).
    exists t, (rename memo <$> sats), p. split.
    + unfold rename_store. apply list_elem_of_fmap. by exists (t, sats).
    + by rewrite lookup_fmap, Hl.
Qed.

(** ** The whole run *)

Lemma rename_memo memo l l' : memo !! l = Some l' → rename memo l = l'.
Proof. unfold rename. by intros ->. Qed.

Lemma rename_store_shape memo rnx :
  Forall2 (λ e e' : Z * gmap Z nat, e'.1 = e.1 ∧ dom e'.2 = dom e.2)
    rnx (rename_store memo rnx).
Proof.
  induction rnx as [|[t sats] rnx IH]; simpl; constructor; [|done].
  simpl. split; [done|]. apply dom_fmap_L.
Qed.

(** Records of the input are not records of the copy, so a run that
    writes into the copy leaves the heap it started from as it was. *)
Lemma input_unchanged h0 memo h1 h2 rnx (Ks : string → Prop) :
  copy_inv h0 (memo, h1) →
  (∀ l, l ∈ store_locs rnx → is_Some (memo !! l)) →
  rates_written (λ l, l ∈ store_locs (rename_store memo rnx)) Ks h1 h2 →
  take (length h0) h2 = h0.
Proof.
  intros (Hext & Hmemo & _) Hall [Hlen Hw]. simpl in *.
  destruct Hext as [ext ->]. apply list_eq. intros l. destruct (decide (l < length h0)%nat) as [Hl|Hl].
  - rewrite lookup_take_lt by done.
    rewrite <- (lookup_app_l h0 ext) by done.
    apply lookup_eq_of_fields; [done|]. intros k.
    destruct (Hw l k) as [->|(Hin & _)]; [done|]. exfalso.
    apply elem_of_store_locs_rename in Hin as (l0 & Hl0 & ->).
    destruct (Hall _ Hl0) as [l' Hl']. rewrite (rename_memo _ _ _ Hl') in Hl.
    destruct (Hmemo _ _ Hl') as (_ & ? & _). lia.
  - rewrite lookup_take_ge by lia. symmetry. apply lookup_ge_None. lia.
Qed.

Section Run.
Variable polyfit : list float → list float → Z → exn + list float.
Variable polyval : list float → float → float.
Variable rnxstep : Z.

(** A run is the copy followed by the loops over the copy. *)
Lemma dopest_unfold rnxdata goodsats freqnum h0 :
  wf_store rnxdata h0 →
  ∃ memo h1,
    copy_inv h0 (memo, h1) ∧
    (∀ l, l ∈ store_locs rnxdata → is_Some (memo !! l)) ∧
    let rnxout := rename_store memo rnxdata in
    let r := freq_loop polyfit polyval rnxstep rnxout goodsats
               (range 1 (1 + freqnum)) false h1 in
    rates_written (λ l, l ∈ store_locs rnxout) (rate_key freqnum) h1 r.2 ∧
    dopest polyfit polyval rnxstep rnxdata goodsats freqnum h0
    = (match r.1 with
       | Ok _ => Ok rnxout
       | ReturnFalse => ReturnFalse
       | Raise e => Raise e
       end, r.2).
Proof.
  intros Hwf. destruct (deepcopy_spec rnxdata h0 Hwf) as (memo & h1 & Hcopy & Hinv & Hall).
  exists memo, h1. split_and!; [done | done |]. intros rnxout r. split.
  - apply freq_loop_frame. intros f Hf. apply elem_of_range in Hf.
    exists f. split; [lia | done].
  - unfold dopest. rewrite (bind_Ok _ _ _ _ _ Hcopy). fold rnxout.
    unfold bind. fold r. by destruct r as [[dc| |e] h2].
Qed.

(** The heap a run started from is intact when it ends, however it ends. *)
Lemma dopest_input_unchanged rnxdata goodsats freqnum h0 :
  wf_store rnxdata h0 →
  take (length h0)
    (dopest polyfit polyval rnxstep rnxdata goodsats freqnum h0).2 = h0.
Proof.
  intros Hwf.
  destruct (dopest_unfold rnxdata goodsats freqnum h0 Hwf)
    as (memo & h1 & Hinv & Hall & Hw & ->).
  simpl. by eapply input_unchanged.
Qed.

(** C6. A run that completes returns a store with the epochs and the
    satellites of the input, in the same order; its records are copies,
    apart from the input's, that agree with the input's on every key that
    is not the rate key of a processed band (phase, code range and flag
    among them); and the records of the input are what they were. *)
Theorem dopest_frame rnxdata goodsats freqnum h0 rnxout h1 :
  wf_store rnxdata h0 →
  dopest polyfit polyval rnxstep rnxdata goodsats freqnum h0 = (Ok rnxout, h1) →
  take (length h0) h1 = h0 ∧
  Forall2 (λ e e' : Z * gmap Z nat, e'.1 = e.1 ∧ dom e'.2 = dom e.2)
    rnxdata rnxout ∧
  ∀ t p l, slot rnxdata t p = Some l →
    ∃ l', slot rnxout t p = Some l' ∧ (length h0 ≤ l')%nat ∧
      field h1 l' "flag" = field h0 l "flag" ∧
      (∀ f, field h1 l' (Lkey f) = field h0 l (Lkey f)) ∧
      (∀ k, ¬ rate_key freqnum k → field h1 l' k = field h0 l k).
Proof.
  intros Hwf Hrun. split.
  { pose proof (dopest_input_unchanged rnxdata goodsats freqnum h0 Hwf) as H.
    by rewrite Hrun in H. }
  destruct (dopest_unfold rnxdata goodsats freqnum h0 Hwf)
    as (memo & hc & Hinv & Hall & Hw & Hd).
  rewrite Hrun in Hd.
  destruct (freq_loop _ _ _ _ _ _ _ _) as [[dc| |e] h2]; simpl in *; [|done|done].
  injection Hd as -> Hh. subst h2. split; [apply rename_store_shape|].
  intros t p l Hslot.
  destruct (Hall l (slot_in_store _ _ _ _ Hslot)) as [l' Hl'].
  destruct Hinv as (_ & Hmemo & _). simpl in Hmemo.
  destruct (Hmemo _ _ Hl') as (Hlt & Hfresh & Hcell).
  assert (Hkeep : ∀ k, ¬ rate_key freqnum k → field h1 l' k = field h0 l k).
  { intros k Hk. destruct Hw as [_ Hw].
    destruct (Hw l' k) as [->|(_ & ? & _)]; [|done].
    unfold field. by rewrite Hcell. }
  exists l'. split_and!.
  - rewrite slot_rename, Hslot. simpl. f_equal. by apply rename_memo.
  - lia.
  - apply Hkeep. intros (f & _ & Hf). by apply flag_ne_Dkey in Hf.
  - intros f. apply Hkeep. intros (f' & _ & Hf). by apply Lkey_ne_Dkey in Hf.
  - exact Hkeep.
Qed.

End Run.

(** ** Loops over a split range *)

Section Split.
Variable polyfit : list float → list float → Z → exn + list float.
Variable polyval : list float → float → float.
Variable rnxstep : Z.
Variable rnxout : store.

Lemma time_loop_app f p ts1 ts2 st h :
  time_loop polyfit polyval rnxstep rnxout f p (ts1 ++ ts2) st h
  = bind (time_loop polyfit polyval rnxstep rnxout f p ts1 st)
         (time_loop polyfit polyval rnxstep rnxout f p ts2) h.
Proof.
  revert st h. induction ts1 as [|t ts1 IH]; intros st h; [done|].
  cbn [app time_loop]. rewrite bind_assoc. apply bind_ext. intros a h'. apply IH.
Qed.

Lemma sat_loop_app f ps1 ps2 dc h :
  sat_loop polyfit polyval rnxstep rnxout f (ps1 ++ ps2) dc h
  = bind (sat_loop polyfit polyval rnxstep rnxout f ps1 dc)
         (sat_loop polyfit polyval rnxstep rnxout f ps2) h.
Proof.
  revert dc h. induction ps1 as [|p ps1 IH]; intros dc h; [done|].
  cbn [app sat_loop]. rewrite bind_assoc. apply bind_ext. intros a h'. apply IH.
Qed.

Lemma freq_loop_app goodsats fs1 fs2 dc h :
  freq_loop polyfit polyval rnxstep rnxout goodsats (fs1 ++ fs2) dc h
  = bind (freq_loop polyfit polyval rnxstep rnxout goodsats fs1 dc)
         (freq_loop polyfit polyval rnxstep rnxout goodsats fs2) h.
Proof.
  revert dc h. induction fs1 as [|f fs1 IH]; intros dc h; [done|].
  cbn [app freq_loop]. rewrite bind_assoc. apply bind_ext. intros a h'. apply IH.
Qed.

(** Whatever part of the loops has run, only rate keys of records of the
    store have been assigned. *)
Lemma time_loop_rates f p ts st h :
  rates_written (λ l, l ∈ store_locs rnxout) any_rate_key h
    (time_loop polyfit polyval rnxstep rnxout f p ts st h).2.
Proof.
  eapply rates_written_weaken; [| |apply time_loop_frame]; [done|].
  intros k <-. by exists f.
Qed.

Lemma sat_loop_rates f ps dc h :
  rates_written (λ l, l ∈ store_locs rnxout) any_rate_key h
    (sat_loop polyfit polyval rnxstep rnxout f ps dc h).2.
Proof.
  eapply rates_written_weaken; [| |apply sat_loop_frame]; [done|].
  intros k <-. by exists f.
Qed.

Lemma freq_loop_rates goodsats fs dc h :
  rates_written (λ l, l ∈ store_locs rnxout) any_rate_key h
    (freq_loop polyfit polyval rnxstep rnxout goodsats fs dc h).2.
Proof. apply freq_loop_frame. intros f _. by exists f. Qed.

End Split.

Lemma rates_written_field Ls h h' l k :
  rates_written Ls any_rate_key h h' → ¬ any_rate_key k →
  field h' l k = field h l k.
Proof. intros [_ Hw] Hk. destruct (Hw l k) as [->|(_ & ? & _)]; done. Qed.

Lemma flag_not_rate_key : ¬ any_rate_key "flag".
Proof. intros [f Hf]. by apply flag_ne_Dkey in Hf. Qed.

Lemma Lkey_not_rate_key f : ¬ any_rate_key (Lkey f).
Proof. intros [f' Hf]. by apply Lkey_ne_Dkey in Hf. Qed.

Lemma missing_phase_rates Ls h h' l f :
  rates_written Ls any_rate_key h h' → missing_phase h l f → missing_phase h' l f.
Proof.
  intros Hw (flag & Hflag & Hint & Hphase). exists flag.
  rewrite (rates_written_field _ _ _ _ _ Hw flag_not_rate_key).
  by rewrite (rates_written_field _ _ _ _ _ Hw (Lkey_not_rate_key f)).
Qed.

Lemma slot_epoch rnx t p l : slot rnx t p = Some l → t ∈ rnx.*1.
Proof.
  intros (sats & Hs & _)%slot_Some. clear p l.
  induction rnx as [|[t' sats'] rnx IH]; simpl in *; [done|].
  destruct (decide (t' = t)) as [->|]; [left | right; by apply IH].
Qed.

Section Abort.
Variable polyfit : list float → list float → Z → exn + list float.
Variable polyval : list float → float → float.
Variable rnxstep : Z.
Variable rnxout : store.

Lemma visit_missing_phase f p t l st h :
  slot rnxout t p = Some l → missing_phase h l f →
  visit polyfit polyval rnxstep rnxout f p t st h = (ReturnFalse, h).
Proof.
  intros (sats & Hsats & Hp)%slot_Some (flag & Hflag & Hint & Hphase).
  unfold visit. rewrite Hsats. mstep. rewrite Hp.
  apply bind_ReturnFalse. by eapply visit_record_missing_phase.
Qed.

Lemma time_loop_missing_phase f p t l ts st h :
  slot rnxout t p = Some l → missing_phase h l f → t ∈ ts →
  ∀ st', (time_loop polyfit polyval rnxstep rnxout f p ts st h).1 ≠ Ok st'.
Proof.
  intros Hslot. revert st h. induction ts as [|t' ts IH]; intros st h Hm Hin st'.
  { by apply elem_of_nil in Hin. }
  cbn [time_loop]. unfold bind.
  destruct (decide (t' = t)) as [->|Hne].
  { by rewrite (visit_missing_phase f p t l st h Hslot Hm). }
  pose proof (visit_frame polyfit polyval rnxstep rnxout f p t' st h) as Hw.
  destruct (visit polyfit polyval rnxstep rnxout f p t' st h) as [[st1| |e] h1];
    [|done|done].
  apply IH.
  - eapply missing_phase_rates; [|done].
    eapply rates_written_weaken; [| |exact Hw]; [done|]. intros k <-. by exists f.
  - apply elem_of_cons in Hin as [->|]; done.
Qed.

Lemma sat_loop_missing_phase f p t l ps dc h :
  slot rnxout t p = Some l → missing_phase h l f → p ∈ ps →
  ∀ dc', (sat_loop polyfit polyval rnxstep rnxout f ps dc h).1 ≠ Ok dc'.
Proof.
  intros Hslot. revert dc h. induction ps as [|p' ps IH]; intros dc h Hm Hin dc'.
  { by apply elem_of_nil in Hin. }
  cbn [sat_loop]. unfold bind.
  pose proof (time_loop_rates polyfit polyval rnxstep rnxout f p' rnxout.*1 ([], dc) h) as Hw.
  destruct (decide (p' = p)) as [->|Hne].
  { pose proof (time_loop_missing_phase f p t l rnxout.*1 ([], dc) h Hslot Hm
                  (slot_epoch _ _ _ _ Hslot)) as Hno.
    destruct (time_loop polyfit polyval rnxstep rnxout f p rnxout.*1 ([], dc) h)
      as [[st1| |e] h1]; [|done|done].
    by destruct (Hno st1). }
  destruct (time_loop polyfit polyval rnxstep rnxout f p' rnxout.*1 ([], dc) h)
    as [[st1| |e] h1]; [|done|done].
  apply IH.
  - by eapply missing_phase_rates.
  - apply elem_of_cons in Hin as [->|]; done.
Qed.

Lemma freq_loop_missing_phase goodsats f p t l fs dc h :
  slot rnxout t p = Some l → missing_phase h l f → p ∈ goodsats → f ∈ fs →
  ∀ dc', (freq_loop polyfit polyval rnxstep rnxout goodsats fs dc h).1 ≠ Ok dc'.
Proof.
  intros Hslot Hm Hp. revert dc h Hm. induction fs as [|f' fs IH]; intros dc h Hm Hin dc'.
  { by apply elem_of_nil in Hin. }
  cbn [freq_loop]. unfold bind.
  pose proof (sat_loop_rates polyfit polyval rnxstep rnxout f' goodsats dc h) as Hw.
  destruct (decide (f' = f)) as [->|Hne].
  { pose proof (sat_loop_missing_phase f p t l goodsats dc h Hslot Hm Hp) as Hno.
    destruct (sat_loop polyfit polyval rnxstep rnxout f goodsats dc h)
      as [[dc1| |e] h1]; [|done|done].
    by destruct (Hno dc1). }
  destruct (sat_loop polyfit polyval rnxstep rnxout f' goodsats dc h)
    as [[dc1| |e] h1]; [|done|done].
  apply IH.
  - by eapply missing_phase_rates.
  - apply elem_of_cons in Hin as [->|]; done.
Qed.

End Abort.

Section AbortRun.
Variable polyfit : list float → list float → Z → exn + list float.
Variable polyval : list float → float → float.
Variable rnxstep : Z.

(** C4. Let a record that is visited (band processed, satellite in
    [goodsats]) and is to be appended to the buffer have no phase value
    for the band. Then the run returns no store, populated in part or
    otherwise, and the heap the caller passed is as it was. When the run
    comes to that record without an exception, it ends there with the
    failure result: the bands, satellites and epochs after it in the loop
    order are not visited. *)
Theorem dopest_missing_phase rnxdata goodsats freqnum h0 f p t l :
  wf_store rnxdata h0 →
  1 ≤ f ≤ freqnum → p ∈ goodsats → slot rnxdata t p = Some l →
  missing_phase h0 l f →
  (∀ rnxout, (dopest polyfit polyval rnxstep rnxdata goodsats freqnum h0).1
             ≠ Ok rnxout) ∧
  take (length h0)
    (dopest polyfit polyval rnxstep rnxdata goodsats freqnum h0).2 = h0 ∧
  ∀ fs1 fs2 ps1 ps2 ts1 ts2 rnxout hc dc1 h1 dc2 h2 st h3,
    range 1 (1 + freqnum) = fs1 ++ f :: fs2 →
    goodsats = ps1 ++ p :: ps2 →
    rnxdata.*1 = ts1 ++ t :: ts2 →
    deepcopy rnxdata h0 = (Ok rnxout, hc) →
    freq_loop polyfit polyval rnxstep rnxout goodsats fs1 false hc = (Ok dc1, h1) →
    sat_loop polyfit polyval rnxstep rnxout f ps1 dc1 h1 = (Ok dc2, h2) →
    time_loop polyfit polyval rnxstep rnxout f p ts1 ([], dc2) h2 = (Ok st, h3) →
    dopest polyfit polyval rnxstep rnxdata goodsats freqnum h0 = (ReturnFalse, h3).
Proof.
  intros Hwf Hf Hp Hslot Hm.
  destruct (deepcopy_spec rnxdata h0 Hwf) as (memo & hc & Hcopy & Hinv & Hall).
  set (rnxout := rename_store memo rnxdata) in *.
  (* the record, in the copy *)
  destruct (Hall l (slot_in_store _ _ _ _ Hslot)) as [l' Hl'].
  destruct Hinv as (_ & Hmemo & _). simpl in Hmemo.
  destruct (Hmemo _ _ Hl') as (_ & _ & Hcell).
  assert (Hslot' : slot rnxout t p = Some l').
  { unfold rnxout. rewrite slot_rename, Hslot. simpl. f_equal. by apply rename_memo. }
  assert (Hm' : missing_phase hc l' f).
  { destruct Hm as (flag & ? & ? & ?). exists flag. unfold field in *.
    by rewrite Hcell. }
  split_and!.
  - intros rnxout'. unfold dopest. rewrite (bind_Ok _ _ _ _ _ Hcopy). unfold bind.
    pose proof (freq_loop_missing_phase polyfit polyval rnxstep rnxout goodsats
                  f p t l' (range 1 (1 + freqnum)) false hc Hslot' Hm' Hp) as Hno.
    destruct (freq_loop polyfit polyval rnxstep rnxout goodsats
                (range 1 (1 + freqnum)) false hc) as [[dc| |e] h]; [|done|done].
    destruct (Hno ltac:(apply elem_of_range; lia) dc). done.
  - by apply dopest_input_unchanged.
  - intros fs1 fs2 ps1 ps2 ts1 ts2 rnxout' hc' dc1 h1 dc2 h2 st h3
      Hfs Hps Hts Hcopy' Hf1 Hs1 Ht1.
    rewrite Hcopy in Hcopy'. injection Hcopy' as <- <-.
    (* flag and phase have not changed on the way *)
    assert (Hm3 : missing_phase h3 l' f).
    { eapply missing_phase_rates; [|eapply missing_phase_rates;
        [|eapply missing_phase_rates; [|exact Hm']]].
      - pose proof (time_loop_rates polyfit polyval rnxstep rnxout f p ts1 ([], dc2) h2) as H.
        rewrite Ht1 in H. exact H.
      - pose proof (sat_loop_rates polyfit polyval rnxstep rnxout f ps1 dc1 h1) as H.
        rewrite Hs1 in H. exact H.
      - pose proof (freq_loop_rates polyfit polyval rnxstep rnxout goodsats fs1 false hc) as H.
        rewrite Hf1 in H. exact H. }
    (* the visit returns False, and so do the loops around it *)
    unfold dopest. rewrite (bind_Ok _ _ _ _ _ Hcopy). apply bind_ReturnFalse.
    rewrite Hfs, freq_loop_app, (bind_Ok _ _ _ _ _ Hf1). cbn [freq_loop].
    apply bind_ReturnFalse.
    rewrite Hps, sat_loop_app, (bind_Ok _ _ _ _ _ Hs1). cbn [sat_loop].
    apply bind_ReturnFalse.
    unfold rnxout at 2. rewrite fst_rename_store, Hts.
    rewrite time_loop_app, (bind_Ok _ _ _ _ _ Ht1). cbn [time_loop].
    apply bind_ReturnFalse. by eapply visit_missing_phase.
Qed.

End AbortRun.

(** ** Two runs side by side *)

Section Related.
Variable S : heap → heap → Prop.

Lemma related_ret {A B} (RV : A → B → Prop) a b :
  RV a b → related S RV (ret a) (ret b).
Proof. intros H hA hB HS. by split. Qed.

Lemma related_raise {A B} (RV : A → B → Prop) e :
  related S RV (raise e) (raise e).
Proof. intros hA hB HS. by split. Qed.

Lemma related_return_false {A B} (RV : A → B → Prop) :
  related S RV return_false return_false.
Proof. intros hA hB HS. by split. Qed.

Lemma related_bind {A B A' B'} (RV : A → B → Prop) (RV' : A' → B' → Prop)
    (mA : M A) (mB : M B) (kA : A → M A') (kB : B → M B') :
  related S RV mA mB →
  (∀ a b, RV a b → related S RV' (kA a) (kB b)) →
  related S RV' (bind mA kA) (bind mB kB).
Proof.
  intros Hm Hk hA hB HS. unfold bind. destruct (Hm hA hB HS) as [Ho HS'].
  destruct (mA hA) as [[a| |e] hA'], (mB hB) as [[b| |e'] hB']; simpl in *;
    try done.
  by apply Hk.
Qed.

End Related.

Section InStep.
Variable ρ : nat → nat.
Variable Ls : nat → Prop.
Variables hA0 hB0 : heap.
Hypothesis ρ_inj : ∀ l1 l2, Ls l1 → Ls l2 → ρ l1 = ρ l2 → l1 = l2.

Lemma related_getfield l k :
  Ls l → ¬ any_rate_key k →
  related (in_step ρ Ls hA0 hB0) eq (getfield l k) (getfield (ρ l) k).
Proof.
  intros Hl Hk hA hB HS. unfold getfield.
  destruct HS as (Hlen & Hread & Hsame). rewrite <- (Hread l k) by done.
  destruct (field hA l k); by split.
Qed.

Lemma related_findfield l k :
  Ls l → ¬ any_rate_key k →
  related (in_step ρ Ls hA0 hB0) eq (findfield l k) (findfield (ρ l) k).
Proof.
  intros Hl Hk hA hB HS. unfold findfield. simpl. split; [|done].
  destruct HS as (_ & Hread & _). by apply Hread.
Qed.

Lemma related_setitem l k v :
  Ls l → any_rate_key k →
  related (in_step ρ Ls hA0 hB0) eq (setitem l k v) (setitem (ρ l) k v).
Proof.
  intros Hl Hk hA hB (Hlen & Hread & Hsame). unfold setitem. simpl.
  split; [done|]. destruct (Hlen l Hl) as [HlA HlB]. split_and!.
  - intros l0 Hl0. rewrite !length_alter. by apply Hlen.
  - intros l0 k0 Hl0 Hk0. rewrite !field_setitem.
    rewrite !decide_False; [by apply Hread | |]; intros (_ & -> & _); done.
  - intros l0 k0 Hl0. rewrite !field_setitem.
    destruct (decide (l0 = l ∧ k0 = k)) as [[-> ->]|Hne].
    + left. by rewrite !decide_True.
    + rewrite !decide_False; [by apply Hsame | |].
      * intros (Hρ & -> & _). apply Hne. split; [|done]. by apply ρ_inj.
      * intros (-> & -> & _). by apply Hne.
Qed.

End InStep.

Section Lockstep.
Variable polyfit : list float → list float → Z → exn + list float.
Variable polyval : list float → float → float.
Variable rnxstep : Z.
Variable memo : gmap nat nat.
Variable rnxA : store.
Variables hA0 hB0 : heap.

Let rnxB : store := rename_store memo rnxA.
Let Ls : nat → Prop := λ l, l ∈ store_locs rnxA.

Hypothesis memo_inj :
  ∀ l1 l2, Ls l1 → Ls l2 → rename memo l1 = rename memo l2 → l1 = l2.

Let S := in_step (rename memo) Ls hA0 hB0.

Lemma write_back_related t p f D ks d :
  related S eq (write_back rnxstep rnxA t p f D ks d)
               (write_back rnxstep rnxB t p f D ks d).
Proof.
  revert d. induction ks as [|k ks IH]; intros d; cbn [write_back].
  { by apply related_ret. }
  destruct (D !! d) as [v|]; mstep; [|apply related_raise].
  unfold rnxB. rewrite epoch_lookup_rename.
  destruct (epoch_lookup (t - Z.of_nat k * rnxstep) rnxA) as [sats|] eqn:Hs;
    simpl; mstep; [|apply related_raise].
  rewrite lookup_fmap.
  destruct (sats !! p) as [l|] eqn:Hl; simpl; mstep; [|apply related_raise].
  eapply related_bind.
  - apply related_setitem; [done | | by exists f].
    apply (slot_in_store _ (t - Z.of_nat k * rnxstep) p), slot_Some. eauto.
  - intros _ _ _. apply IH.
Qed.

Lemma estimate_related t p f L :
  related S eq (estimate polyfit polyval rnxstep rnxA t p f L)
               (estimate polyfit polyval rnxstep rnxB t p f L).
Proof.
  unfold estimate. destruct (arc_rates _ _ _ L).
  - apply related_raise.
  - apply write_back_related.
Qed.

Lemma visit_record_related l f st :
  Ls l →
  related S eq (visit_record l f st) (visit_record (rename memo l) f st).
Proof.
  intros Hl. destruct st as [L dc]. unfold visit_record.
  eapply related_bind.
  { apply related_getfield; [done | apply flag_not_rate_key]. }
  intros flag _ <-. destruct (is_str flag "solo" || is_str flag "slip").
  - eapply related_bind.
    + apply related_setitem; [done | done | by exists f].
    + intros _ _ _. by apply related_ret.
  - eapply related_bind.
    { apply related_findfield; [done | apply Lkey_not_rate_key]. }
    intros o _ <-. destruct o; [by apply related_ret | apply related_return_false].
Qed.

Lemma visit_related f p t st :
  related S eq (visit polyfit polyval rnxstep rnxA f p t st)
               (visit polyfit polyval rnxstep rnxB f p t st).
Proof.
  unfold visit, rnxB. rewrite epoch_lookup_rename.
  destruct (epoch_lookup t rnxA) as [sats|] eqn:Hs; simpl; mstep;
    [|apply related_raise].
  eapply related_bind.
  { rewrite lookup_fmap. destruct (sats !! p) as [l|] eqn:Hl; simpl.
    - apply visit_record_related.
      apply (slot_in_store _ t p), slot_Some. eauto.
    - by apply related_ret. }
  intros st' _ <-. destruct (st'.2).
  - eapply related_bind; [apply estimate_related|].
    intros _ _ _. by apply related_ret.
  - by apply related_ret.
Qed.

Lemma time_loop_related f p ts st :
  related S eq (time_loop polyfit polyval rnxstep rnxA f p ts st)
               (time_loop polyfit polyval rnxstep rnxB f p ts st).
Proof.
  revert st. induction ts as [|t ts IH]; intros st; cbn [time_loop].
  - by apply related_ret.
  - eapply related_bind; [apply visit_related|]. intros st' _ <-. apply IH.
Qed.

Lemma sat_loop_related f ps dc :
  related S eq (sat_loop polyfit polyval rnxstep rnxA f ps dc)
               (sat_loop polyfit polyval rnxstep rnxB f ps dc).
Proof.
  revert dc. induction ps as [|p ps IH]; intros dc; cbn [sat_loop].
  - by apply related_ret.
  - unfold rnxB at 2. rewrite fst_rename_store.
    eapply related_bind; [apply time_loop_related|]. intros st' _ <-. apply IH.
Qed.

Lemma freq_loop_related goodsats fs dc :
  related S eq (freq_loop polyfit polyval rnxstep rnxA goodsats fs dc)
               (freq_loop polyfit polyval rnxstep rnxB goodsats fs dc).
Proof.
  revert dc. induction fs as [|f fs IH]; intros dc; cbn [freq_loop].
  - by apply related_ret.
  - eapply related_bind; [apply sat_loop_related|]. intros dc' _ <-. apply IH.
Qed.

End Lockstep.

Lemma lookup_eq_of_fields_at (h h' : heap) l l' :
  (l < length h)%nat → (l' < length h')%nat →
  (∀ k, field h' l' k = field h l k) → h' !! l' = h !! l.
Proof.
  intros Hl Hl' Hf. unfold field in Hf.
  destruct (lookup_lt_is_Some_2 h l Hl) as [r Hr].
  destruct (lookup_lt_is_Some_2 h' l' Hl') as [r' Hr'].
  rewrite Hr, Hr' in *. f_equal. apply map_eq. intros k. apply (Hf k).
Qed.

Section Idempotence.
Variable polyfit : list float → list float → Z → exn + list float.
Variable polyval : list float → float → float.
Variable rnxstep : Z.

(** C7. Running the engine on the store it returned, with the same
    satellites, bands and step, completes again, and every record of the
    second result is equal, key by key and value by value, to the record
    of the first result it was copied from: the rates are the same
    floats. *)
Theorem dopest_idempotent rnxdata goodsats freqnum h0 rnxout h1 :
  wf_store rnxdata h0 →
  dopest polyfit polyval rnxstep rnxdata goodsats freqnum h0 = (Ok rnxout, h1) →
  ∃ rnxout' h2,
    dopest polyfit polyval rnxstep rnxout goodsats freqnum h1 = (Ok rnxout', h2) ∧
    Forall2 (λ e e' : Z * gmap Z nat, e'.1 = e.1 ∧ dom e'.2 = dom e.2)
      rnxout rnxout' ∧
    ∀ t p l, slot rnxout t p = Some l →
      ∃ l', slot rnxout' t p = Some l' ∧ is_Some (h1 !! l) ∧ h2 !! l' = h1 !! l.
Proof.
  intros Hwf Hrun.
  (* the first run *)
  destruct (dopest_unfold polyfit polyval rnxstep rnxdata goodsats freqnum h0 Hwf)
    as (memo1 & hc1 & Hinv1 & Hall1 & Hw1 & Hd1).
  rewrite Hrun in Hd1.
  destruct (freq_loop polyfit polyval rnxstep (rename_store memo1 rnxdata) goodsats
              (range 1 (1 + freqnum)) false hc1) as [o1 h1'] eqn:Hr1.
  simpl in Hd1, Hw1. destruct o1 as [dc1| |e1]; [|done|done].
  injection Hd1 as -> ->.
  set (rnxout := rename_store memo1 rnxdata) in *.
  destruct Hw1 as [Hlen1 Hw1].
  assert (Hwf1 : wf_store rnxout hc1).
  { apply Forall_forall. intros l' Hl'.
    apply elem_of_store_locs_rename in Hl' as (l & Hl & ->).
    destruct (Hall1 l Hl) as [l' Hl']. rewrite (rename_memo _ _ _ Hl').
    destruct Hinv1 as (_ & Hmemo & _). by destruct (Hmemo _ _ Hl') as (_ & [_ ?] & _). }
  assert (Hwf2 : wf_store rnxout h1').
  { unfold wf_store. by rewrite Hlen1. }
  (* the second run *)
  destruct (dopest_unfold polyfit polyval rnxstep rnxout goodsats freqnum h1' Hwf2)
    as (memo2 & hc2 & Hinv2 & Hall2 & _ & Hd2).
  destruct Hinv2 as (_ & Hmemo2 & Hinj2). simpl in Hmemo2, Hinj2.
  assert (Hcopy : ∀ l, l ∈ store_locs rnxout →
            (rename memo2 l < length hc2)%nat ∧ hc2 !! rename memo2 l = h1' !! l).
  { intros l Hl. destruct (Hall2 l Hl) as [l' Hl'].
    rewrite (rename_memo _ _ _ Hl'). destruct (Hmemo2 _ _ Hl') as (_ & [_ ?] & ?).
    by split. }
  assert (Hinj : ∀ l1 l2, l1 ∈ store_locs rnxout → l2 ∈ store_locs rnxout →
            rename memo2 l1 = rename memo2 l2 → l1 = l2).
  { intros l1 l2 H1 H2. destruct (Hall2 l1 H1) as [l1' Hl1'], (Hall2 l2 H2) as [l2' Hl2'].
    rewrite (rename_memo _ _ _ Hl1'), (rename_memo _ _ _ Hl2'). intros <-.
    by eapply Hinj2. }
  (* both in step, from the copies on *)
  destruct (freq_loop_related polyfit polyval rnxstep memo2 rnxout hc1 hc2 Hinj
              goodsats (range 1 (1 + freqnum)) false hc1 hc2) as [Hout Hstep].
  { split_and!.
    - intros l Hl. split; [|by apply Hcopy].
      unfold wf_store in Hwf1. rewrite Forall_forall in Hwf1. by apply Hwf1.
    - intros l k Hl Hk. unfold field at 2. rewrite (proj2 (Hcopy l Hl)).
      fold (field h1' l k).
      destruct (Hw1 l k) as [->|(_ & [f [_ ->]] & _)]; [done|].
      exfalso. apply Hk. by exists f.
    - intros l k Hl. by right. }
  rewrite Hr1 in Hout, Hstep. simpl in Hout, Hstep.
  destruct (freq_loop polyfit polyval rnxstep (rename_store memo2 rnxout) goodsats
              (range 1 (1 + freqnum)) false hc2) as [o2 h2] eqn:Hr2.
  simpl in *. destruct o2 as [dc2| |e2]; [|done|done].
  exists (rename_store memo2 rnxout), h2. split_and!; [done | apply rename_store_shape |].
  intros t p l Hslot. pose proof (slot_in_store _ _ _ _ Hslot) as Hl.
  exists (rename memo2 l). destruct Hstep as (Hlen & _ & Hsame).
  destruct (Hlen l Hl) as [HlA HlB]. split_and!.
  - by rewrite slot_rename, Hslot.
  - by apply lookup_lt_is_Some_2.
  - apply lookup_eq_of_fields_at; [done | done |]. intros k.
    destruct (Hsame l k Hl) as [->|[_ ->]]; [done|].
    unfold field. by rewrite (proj2 (Hcopy l Hl)).
Qed.

End Idempotence.

(** ** Rates in the result *)

Section Rates.
Variable polyfit : list float → list float → Z → exn + list float.
Variable polyval : list float → float → float.
Variable rnxstep : Z.


End Rates.

(** ** Runs on sample sessions *)

Lemma dopest_frame_witness :
  let h0 := [obs 1 "start"; obs 2 "end"] in
  let h1 := (dopest sample_polyfit horner 1000000 (session 2) [1] 1 h0).2 in
  take (length h0) h1 = h0 ∧
  Forall2 (λ e e' : Z * gmap Z nat, e'.1 = e.1 ∧ dom e'.2 = dom e.2)
    (session 2) (session_at 2 2) ∧
  ∀ t p l, slot (session 2) t p = Some l →
    ∃ l', slot (session_at 2 2) t p = Some l' ∧ (length h0 ≤ l')%nat ∧
      field h1 l' "flag" = field h0 l "flag" ∧
      (∀ f, field h1 l' (Lkey f) = field h0 l (Lkey f)) ∧
      (∀ k, ¬ rate_key 1 k → field h1 l' k = field h0 l k).
Proof.
  intros h0 h1.
  apply (dopest_frame sample_polyfit horner 1000000 (session 2) [1] 1 h0
           (session_at 2 2) h1).
  - unfold wf_store. vm_compute. repeat constructor.
  - vm_compute; reflexivity.
Defined.

Lemma dopest_idempotent_witness :
  let h0 := [obs 1 "start"; obs 2 "end"] in
  let h1 := (dopest sample_polyfit horner 1000000 (session 2) [1] 1 h0).2 in
  ∃ rnxout' h2,
    dopest sample_polyfit horner 1000000 (session_at 2 2) [1] 1 h1 = (Ok rnxout', h2) ∧
    Forall2 (λ e e' : Z * gmap Z nat, e'.1 = e.1 ∧ dom e'.2 = dom e.2)
      (session_at 2 2) rnxout' ∧
    ∀ t p l, slot (session_at 2 2) t p = Some l →
      ∃ l', slot rnxout' t p = Some l' ∧ is_Some (h1 !! l) ∧ h2 !! l' = h1 !! l.
Proof.
  intros h0 h1.
  apply (dopest_idempotent sample_polyfit horner 1000000 (session 2) [1] 1 h0
           (session_at 2 2) h1).
  - unfold wf_store. vm_compute. repeat constructor.
  - vm_compute; reflexivity.
Defined.


Lemma dopest_missing_phase_witness :
  let h0 := [obs 1 "start"; obs_no_phase "none"] in
  (∀ rnxout, (dopest sample_polyfit horner 1000000 (session 2) [1] 1 h0).1
             ≠ Ok rnxout) ∧
  take (length h0)
    (dopest sample_polyfit horner 1000000 (session 2) [1] 1 h0).2 = h0 ∧
  dopest sample_polyfit horner 1000000 (session 2) [1] 1 h0
  = (ReturnFalse, h0 ++ h0).
Proof.
  intros h0.
  destruct (dopest_missing_phase sample_polyfit horner 1000000 (session 2) [1] 1 h0
              1 1 1000000 1%nat) as (Hno & Hin & Hret).
  - unfold wf_store. vm_compute. repeat constructor.
  - lia.
  - by left.
  - vm_compute; reflexivity.
  - exists (VStr "none"). split_and!; vm_compute; reflexivity.
  - split; [exact Hno|]. split; [exact Hin|].
    apply (Hret [] [] [] [] [0] [] (session_at 2 2) (h0 ++ h0)
             false (h0 ++ h0) false (h0 ++ h0) ([VFloat 1], false) (h0 ++ h0));
      first [reflexivity | vm_compute; reflexivity].
Defined.

(** C3 (failing input). Satellite 1 is flagged 'start', 'slip', 'end' at
    three consecutive epochs. The 'slip' record is given the sentinel when
    it is visited and its phase is not appended, but the arc that ends at
    the next epoch has a buffer of two entries and its write-back assigns
    the first rate to the epoch one step before the end, the 'slip' epoch:
    the result holds a float there, whatever fit numpy returns, and the
    'start' record has no rate. *)
Theorem slip_epoch_overwritten polyfit polyval coeff :
  polyfit (linspace0 2) [1; 3]%float 19 = inr coeff →
  let h0 := [obs 1 "start"; obs 2 "slip"; obs 3 "end"] in
  let hc := h0 ++ h0 in
  let r := dopest polyfit polyval 1000000 (session 3) [1] 1 h0 in
  (* the copy, and the state after the 'slip' epoch *)
  deepcopy (session 3) h0 = (Ok (session_at 3 3), hc) ∧
  slot (session_at 3 3) 1000000 1 = Some 4%nat ∧
  (∃ h, time_loop polyfit polyval 1000000 (session_at 3 3) 1 1 [0; 1000000]
          ([], false) hc = (Ok ([VFloat 1], false), h) ∧
        field h 4 (Dkey 1) = Some sentinel) ∧
  (* the result *)
  r.1 = Ok (session_at 3 3) ∧
  field r.2 4 "flag" = Some (VStr "slip") ∧
  field r.2 4 (Dkey 1)
    = Some (VFloat (spec_rate polyval coeff (float_of_int 1) 0 1%float)) ∧
  field r.2 3 (Dkey 1) = None.
Proof.
  intros Hfit h0 hc r.
  split; [vm_compute; reflexivity|]. split; [vm_compute; reflexivity|].
  split; [eexists; split; vm_compute; reflexivity|].
  assert (Hr : r = (Ok (session_at 3 3),
                    [obs 1 "start"; obs 2 "slip"; obs 3 "end"; obs 1 "start";
                     <[Dkey 1 := VFloat (spec_rate polyval coeff (float_of_int 1) 0 1%float)]>
                       (obs 2 "slip");
                     <[Dkey 1 := VFloat (spec_rate polyval coeff (float_of_int 1) 1 3%float)]>
                       (obs 3 "end")])).
  { vm_compute in Hfit. unfold r. vm_compute. rewrite Hfit. vm_compute. reflexivity. }
  rewrite Hr. split_and!; vm_compute; reflexivity.
Qed.

Lemma slip_epoch_overwritten_witness :
  let h0 := [obs 1 "start"; obs 2 "slip"; obs 3 "end"] in
  let r := dopest sample_polyfit horner 1000000 (session 3) [1] 1 h0 in
  r.1 = Ok (session_at 3 3) ∧
  field r.2 4 "flag" = Some (VStr "slip") ∧
  field r.2 4 (Dkey 1) = Some (VFloat (-200)).
Proof.
  intros h0 r.
  destruct (slip_epoch_overwritten sample_polyfit horner
              (replicate 19 0%float ++ [3%float]) eq_refl)
    as (_ & _ & _ & H1 & H2 & H3 & _).
  split; [exact H1|]. split; [exact H2|]. exact H3.
Defined.

(** C5 (failing input). Satellite 1 is flagged 'start' and then 'slip':
    the arc never ends. The run completes and the 'start' record, which
    was visited, has no rate field: no value at all is stored under 'D1',
    neither the sentinel nor a float. *)
Theorem open_arc_unpopulated polyfit polyval :
  let h0 := [obs 1 "start"; obs 2 "slip"] in
  let r := dopest polyfit polyval 1000000 (session 2) [1] 1 h0 in
  r.1 = Ok (session_at 2 2) ∧
  slot (session_at 2 2) 0 1 = Some 2%nat ∧
  field r.2 2 "flag" = Some (VStr "start") ∧
  field r.2 2 (Lkey 1) = Some (VFloat 1) ∧
  field r.2 2 (Dkey 1) = None ∧
  field r.2 3 (Dkey 1) = Some sentinel.
Proof.
  intros h0 r. split_and!; vm_compute; reflexivity.
Qed.

(** * Further properties of [dopest] *)

Lemma bind_Raise_l {A B} (m : M A) (k : A → M B) h e h' :
  m h = (Raise e, h') → bind m k h = (Raise e, h').
Proof. unfold bind. by intros ->. Qed.

(** ** The caller's records, whatever the outcome *)

(** X1. However a run ends (with a store, with False or with an
    exception), the records on the heap it was started from are what
    they were: every assignment went into the copy. *)
Theorem dopest_never_mutates_input polyfit polyval rnxstep rnxdata goodsats freqnum h0 :
  wf_store rnxdata h0 →
  take (length h0)
    (dopest polyfit polyval rnxstep rnxdata goodsats freqnum h0).2 = h0.
Proof. apply dopest_input_unchanged. Qed.

Lemma dopest_never_mutates_input_witness :
  let h0 := [obs 1 "start"; obs 2 "none"] in
  take (length h0)
    (dopest sample_polyfit horner 1000000 (session_at 0 1 ++ [(2000000, {[ 1 := 1%nat ]})])
       [1] 1 h0).2 = h0.
Proof.
  intros h0. apply dopest_never_mutates_input.
  unfold wf_store. vm_compute. repeat constructor.
Defined.

(** ** [dopp_condition] between visits *)

Section Condition.
Variable polyfit : list float → list float → Z → exn + list float.
Variable polyval : list float → float → float.
Variable rnxstep : Z.
Variable rnxout : store.

Lemma visit_condition f p t st h st' h' :
  visit polyfit polyval rnxstep rnxout f p t st h = (Ok st', h') → st'.2 = false.
Proof.
  unfold visit. destruct (epoch_lookup t rnxout) as [sats|]; mstep; [|done].
  unfold bind at 1.
  destruct (match sats !! p with Some l => visit_record l f st | None => ret st end h)
    as [[st1| |e] h1]; [|done|done].
  destruct (st1.2) eqn:Hdc.
  - unfold bind. destruct (estimate _ _ _ _ _ _ _ _ h1) as [[[]| |e] h2]; [|done|done].
    by intros [= <- _].
  - by intros [= <- _].
Qed.

Lemma time_loop_condition f p ts st h st' h' :
  st.2 = false →
  time_loop polyfit polyval rnxstep rnxout f p ts st h = (Ok st', h') → st'.2 = false.
Proof.
  revert st h. induction ts as [|t ts IH]; intros st h Hst; cbn [time_loop].
  { by intros [= <- _]. }
  unfold bind. destruct (visit polyfit polyval rnxstep rnxout f p t st h)
    as [[st1| |e] h1] eqn:Hv; [|done|done].
  apply IH. by eapply visit_condition.
Qed.

Lemma sat_loop_condition f ps h dc' h' :
  sat_loop polyfit polyval rnxstep rnxout f ps false h = (Ok dc', h') → dc' = false.
Proof.
  revert h. induction ps as [|p ps IH]; intros h; cbn [sat_loop].
  { by intros [= <- _]. }
  unfold bind.
  destruct (time_loop polyfit polyval rnxstep rnxout f p rnxout.*1 ([], false) h)
    as [[st1| |e] h1] eqn:Ht; [|done|done].
  apply time_loop_condition in Ht; [|done]. rewrite Ht. apply IH.
Qed.

(** X2. [dopp_condition] is False after every visit that completes,
    whatever it was before, and so it is False whenever an epoch, a
    satellite or a band is entered: the variable, although it lives
    across all three loops, never carries a pending estimation from one
    epoch, satellite or band to the next. *)
Theorem dopp_condition_cleared goodsats :
  (∀ f p t st h st' h',
     visit polyfit polyval rnxstep rnxout f p t st h = (Ok st', h') → st'.2 = false) ∧
  (∀ f p ts L h st' h',
     time_loop polyfit polyval rnxstep rnxout f p ts (L, false) h = (Ok st', h') →
     st'.2 = false) ∧
  (∀ f ps h dc' h',
     sat_loop polyfit polyval rnxstep rnxout f ps false h = (Ok dc', h') → dc' = false) ∧
  (∀ fs h dc' h',
     freq_loop polyfit polyval rnxstep rnxout goodsats fs false h = (Ok dc', h') →
     dc' = false).
Proof.
  split_and!.
  - apply visit_condition.
  - intros f p ts L h st' h'. by apply time_loop_condition.
  - apply sat_loop_condition.
  - intros fs. induction fs as [|f fs IH]; intros h dc' h'; cbn [freq_loop].
    { by intros [= <- _]. }
    unfold bind.
    destruct (sat_loop polyfit polyval rnxstep rnxout f goodsats false h)
      as [[dc1| |e] h1] eqn:Hs; [|done|done].
    apply sat_loop_condition in Hs. rewrite Hs. apply IH.
Qed.

End Condition.

(** ** Which records and keys a run assigns *)

Section Touch.
Variable polyfit : list float → list float → Z → exn + list float.
Variable polyval : list float → float → float.
Variable rnxstep : Z.
Variable rnxout : store.

Local Ltac touch_bind :=
  apply preserves_bind; [apply rates_written_trans | |].

Lemma write_back_touch t p f D ks d :
  preserves (rates_written (sat_locs rnxout p) (eq (Dkey f)))
    (write_back rnxstep rnxout t p f D ks d).
Proof.
  revert d. induction ks as [|k ks IH]; intros d.
  { apply preserves_ret, rates_written_refl. }
  cbn [write_back]. touch_bind.
  { destruct (D !! d); [apply preserves_ret | apply preserves_raise];
      apply rates_written_refl. }
  intros v.
  destruct (epoch_lookup (t - Z.of_nat k * rnxstep) rnxout) as [sats|] eqn:Hs.
  2:{ intros h. apply rates_written_refl. }
  mstep. destruct (sats !! p) as [l|] eqn:Hl.
  2:{ intros h. apply rates_written_refl. }
  mstep. intros h. rewrite bind_setitem.
  eapply rates_written_trans; [|apply IH].
  apply rates_written_setitem; [|done|right; eauto].
  exists (t - Z.of_nat k * rnxstep). apply slot_Some. eauto.
Qed.

Lemma visit_touch f p t st :
  preserves (rates_written (sat_locs rnxout p) (eq (Dkey f)))
    (visit polyfit polyval rnxstep rnxout f p t st).
Proof.
  unfold visit. destruct (epoch_lookup t rnxout) as [sats|] eqn:Hs.
  2:{ intros h. apply rates_written_refl. }
  mstep. touch_bind.
  { destruct (sats !! p) as [l|] eqn:Hl; [|apply preserves_ret, rates_written_refl].
    assert (Hin : sat_locs rnxout p l) by (exists t; apply slot_Some; eauto).
    destruct st as [L dc]. unfold visit_record. touch_bind.
    { apply preserves_getfield, rates_written_refl. }
    intros flag. destruct (is_str flag "solo" || is_str flag "slip").
    - intros h. rewrite bind_setitem.
      apply rates_written_setitem; [done | done | by left].
    - touch_bind; [apply preserves_findfield, rates_written_refl|].
      intros [v|]; [apply preserves_ret | apply preserves_return_false];
        apply rates_written_refl. }
  intros st'. destruct (st'.2); [|apply preserves_ret, rates_written_refl].
  touch_bind.
  - unfold estimate. destruct (arc_rates _ _ _ _).
    + apply preserves_raise, rates_written_refl.
    + apply write_back_touch.
  - intros _. apply preserves_ret, rates_written_refl.
Qed.

Lemma time_loop_touch f p ts st :
  preserves (rates_written (sat_locs rnxout p) (eq (Dkey f)))
    (time_loop polyfit polyval rnxstep rnxout f p ts st).
Proof.
  revert st. induction ts as [|t ts IH]; intros st; cbn [time_loop].
  - apply preserves_ret, rates_written_refl.
  - touch_bind; [apply visit_touch | apply IH].
Qed.

Lemma sat_loop_touch f ps dc :
  preserves (rates_written (good_locs rnxout ps) (eq (Dkey f)))
    (sat_loop polyfit polyval rnxstep rnxout f ps dc).
Proof.
  revert dc. induction ps as [|p ps IH]; intros dc; cbn [sat_loop].
  - apply preserves_ret, rates_written_refl.
  - touch_bind.
    + intros h. eapply rates_written_weaken; [| |apply time_loop_touch]; [|done].
      intros l Hl. exists p. split; [left | done].
    + intros st h. eapply rates_written_weaken; [| |apply IH]; [|done].
      intros l (q & Hq & Hl). exists q. split; [by right | done].
Qed.

Lemma freq_loop_touch goodsats fs dc :
  preserves (rates_written (good_locs rnxout goodsats) (rate_key_of fs))
    (freq_loop polyfit polyval rnxstep rnxout goodsats fs dc).
Proof.
  revert dc. induction fs as [|f fs IH]; intros dc; cbn [freq_loop].
  - apply preserves_ret, rates_written_refl.
  - touch_bind.
    + intros h. eapply rates_written_weaken; [| |apply sat_loop_touch]; [done|].
      intros k <-. exists f. split; [left | done].
    + intros dc' h. eapply rates_written_weaken; [| |apply IH]; [done|].
      intros k (f' & Hf' & ->). exists f'. split; [by right | done].
Qed.

End Touch.

Section Untouched.
Variable polyfit : list float → list float → Z → exn + list float.
Variable polyval : list float → float → float.
Variable rnxstep : Z.

(** X3. The records of satellites outside [goodsats] come out as exact
    copies, key for key, with no rate field added: a record of the input
    that is not the record of any satellite of [goodsats] at any epoch is
    equal to its copy in the result. *)
Theorem dopest_skips_other_satellites rnxdata goodsats freqnum h0 rnxout h1 t q l :
  wf_store rnxdata h0 →
  dopest polyfit polyval rnxstep rnxdata goodsats freqnum h0 = (Ok rnxout, h1) →
  slot rnxdata t q = Some l →
  (∀ t' p, p ∈ goodsats → slot rnxdata t' p ≠ Some l) →
  ∃ l', slot rnxout t q = Some l' ∧ (length h0 ≤ l')%nat ∧ h1 !! l' = h0 !! l.
Proof.
  intros Hwf Hrun Hslot Hother.
  destruct (deepcopy_spec rnxdata h0 Hwf) as (memo & hc & Hcopy & Hinv & Hall).
  unfold dopest in Hrun. rewrite (bind_Ok _ _ _ _ _ Hcopy) in Hrun.
  pose proof (freq_loop_touch polyfit polyval rnxstep (rename_store memo rnxdata)
                goodsats (range 1 (1 + freqnum)) false hc) as Hw.
  unfold bind in Hrun.
  destruct (freq_loop polyfit polyval rnxstep (rename_store memo rnxdata) goodsats
              (range 1 (1 + freqnum)) false hc) as [[dc| |e] h2]; [|done|done].
  injection Hrun as <- <-. simpl in Hw.
  destruct (Hall l (slot_in_store _ _ _ _ Hslot)) as [l' Hl'].
  destruct Hinv as (_ & Hmemo & Hinj). simpl in Hmemo, Hinj.
  destruct (Hmemo _ _ Hl') as (_ & Hfresh & Hcell).
  exists l'. split_and!.
  - rewrite slot_rename, Hslot. simpl. f_equal. by apply rename_memo.
  - lia.
  - rewrite <- Hcell. destruct Hw as [Hlen Hw].
    apply lookup_eq_of_fields; [done|]. intros k.
    destruct (Hw l' k) as [->|((p & Hp & t' & Hs) & _)]; [done|]. exfalso.
    rewrite slot_rename in Hs.
    destruct (slot rnxdata t' p) as [l0|] eqn:Hs0; [|done]. simpl in Hs.
    injection Hs as Hs.
    destruct (Hall l0 (slot_in_store _ _ _ _ Hs0)) as [l0' Hl0'].
    rewrite (rename_memo _ _ _ Hl0') in Hs. subst l0'.
    assert (l0 = l) as -> by (by eapply Hinj).
    by apply (Hother t' p).
Qed.

(** X4. With no satellite to process, or no band, a run assigns nothing
    and cannot fail, whatever the records hold: it returns a store of
    fresh records equal to the input's. *)
Theorem dopest_nothing_to_process rnxdata goodsats freqnum h0 :
  wf_store rnxdata h0 →
  goodsats = [] ∨ freqnum ≤ 0 →
  ∃ rnxout h1,
    dopest polyfit polyval rnxstep rnxdata goodsats freqnum h0 = (Ok rnxout, h1) ∧
    Forall2 (λ e e' : Z * gmap Z nat, e'.1 = e.1 ∧ dom e'.2 = dom e.2)
      rnxdata rnxout ∧
    ∀ t q l, slot rnxdata t q = Some l →
      ∃ l', slot rnxout t q = Some l' ∧ (length h0 ≤ l')%nat ∧ h1 !! l' = h0 !! l.
Proof.
  intros Hwf Hnone.
  destruct (deepcopy_spec rnxdata h0 Hwf) as (memo & hc & Hcopy & Hinv & Hall).
  exists (rename_store memo rnxdata), hc.
  assert (Hloops : ∀ dc, freq_loop polyfit polyval rnxstep (rename_store memo rnxdata)
                     goodsats (range 1 (1 + freqnum)) dc hc = (Ok dc, hc)).
  { destruct Hnone as [->|Hf].
    - induction (range 1 (1 + freqnum)) as [|f fs IH]; intros dc; [done|].
      cbn [freq_loop sat_loop]. mstep. apply IH.
    - unfold range. replace (Z.to_nat (1 + freqnum - 1)) with 0%nat by lia. done. }
  split_and!.
  - unfold dopest. rewrite (bind_Ok _ _ _ _ _ Hcopy).
    by rewrite (bind_Ok _ _ _ _ _ (Hloops false)).
  - apply rename_store_shape.
  - intros t q l Hslot.
    destruct (Hall l (slot_in_store _ _ _ _ Hslot)) as [l' Hl'].
    destruct Hinv as (_ & Hmemo & _). simpl in Hmemo.
    destruct (Hmemo _ _ Hl') as (_ & Hfresh & Hcell).
    exists l'. split_and!; [|lia|done].
    rewrite slot_rename, Hslot. simpl. f_equal. by apply rename_memo.
Qed.

End Untouched.

(** ** A record without a flag *)

Lemma rates_written_missing_flag Ls h h' l :
  rates_written Ls any_rate_key h h' →
  field h l "flag" = None → field h' l "flag" = None.
Proof. intros Hw. by rewrite (rates_written_field _ _ _ _ _ Hw flag_not_rate_key). Qed.

Section NoFlag.
Variable polyfit : list float → list float → Z → exn + list float.
Variable polyval : list float → float → float.
Variable rnxstep : Z.
Variable rnxout : store.

Lemma visit_missing_flag f p t l st h :
  slot rnxout t p = Some l → field h l "flag" = None →
  visit polyfit polyval rnxstep rnxout f p t st h = (Raise KeyError, h).
Proof.
  intros (sats & Hsats & Hp)%slot_Some Hflag.
  unfold visit. rewrite Hsats. mstep. rewrite Hp.
  apply bind_Raise_l. by apply visit_record_no_flag.
Qed.

Lemma time_loop_missing_flag f p t l ts st h :
  slot rnxout t p = Some l → field h l "flag" = None → t ∈ ts →
  ∀ st', (time_loop polyfit polyval rnxstep rnxout f p ts st h).1 ≠ Ok st'.
Proof.
  intros Hslot. revert st h. induction ts as [|t' ts IH]; intros st h Hm Hin st'.
  { by apply elem_of_nil in Hin. }
  cbn [time_loop]. unfold bind.
  destruct (decide (t' = t)) as [->|Hne].
  { by rewrite (visit_missing_flag f p t l st h Hslot Hm). }
  pose proof (time_loop_rates polyfit polyval rnxstep rnxout f p [t'] st h) as Hw.
  cbn [time_loop] in Hw. unfold bind in Hw.
  destruct (visit polyfit polyval rnxstep rnxout f p t' st h) as [[st1| |e] h1];
    [|done|done].
  apply IH; [by eapply rates_written_missing_flag|].
  apply elem_of_cons in Hin as [->|]; done.
Qed.

Lemma sat_loop_missing_flag f p t l ps dc h :
  slot rnxout t p = Some l → field h l "flag" = None → p ∈ ps →
  ∀ dc', (sat_loop polyfit polyval rnxstep rnxout f ps dc h).1 ≠ Ok dc'.
Proof.
  intros Hslot. revert dc h. induction ps as [|p' ps IH]; intros dc h Hm Hin dc'.
  { by apply elem_of_nil in Hin. }
  cbn [sat_loop]. unfold bind.
  pose proof (time_loop_rates polyfit polyval rnxstep rnxout f p' rnxout.*1 ([], dc) h) as Hw.
  destruct (decide (p' = p)) as [->|Hne].
  { pose proof (time_loop_missing_flag f p t l rnxout.*1 ([], dc) h Hslot Hm
                  (slot_epoch _ _ _ _ Hslot)) as Hno.
    destruct (time_loop polyfit polyval rnxstep rnxout f p rnxout.*1 ([], dc) h)
      as [[st1| |e] h1]; [|done|done].
    by destruct (Hno st1). }
  destruct (time_loop polyfit polyval rnxstep rnxout f p' rnxout.*1 ([], dc) h)
    as [[st1| |e] h1]; [|done|done].
  apply IH; [by eapply rates_written_missing_flag|].
  apply elem_of_cons in Hin as [->|]; done.
Qed.

Lemma freq_loop_missing_flag goodsats f p t l fs dc h :
  slot rnxout t p = Some l → field h l "flag" = None → p ∈ goodsats → f ∈ fs →
  ∀ dc', (freq_loop polyfit polyval rnxstep rnxout goodsats fs dc h).1 ≠ Ok dc'.
Proof.
  intros Hslot Hm Hp. revert dc h Hm. induction fs as [|f' fs IH]; intros dc h Hm Hin dc'.
  { by apply elem_of_nil in Hin. }
  cbn [freq_loop]. unfold bind.
  pose proof (sat_loop_rates polyfit polyval rnxstep rnxout f' goodsats dc h) as Hw.
  pose proof (sat_loop_missing_flag f' p t l goodsats dc h Hslot Hm Hp) as Hno.
  destruct (sat_loop polyfit polyval rnxstep rnxout f' goodsats dc h)
    as [[dc1| |e] h1]; [|done|done].
  by destruct (Hno dc1).
Qed.

End NoFlag.

Section NoFlagRun.
Variable polyfit : list float → list float → Z → exn + list float.
Variable polyval : list float → float → float.
Variable rnxstep : Z.

(** X5. A record of a satellite of [goodsats] that has no 'flag' key
    makes every run over at least one band fail: no store is returned.
    The failure is an exception and not the failure result: when the run
    comes to the record without an earlier failure, it raises KeyError
    there, already in the first band. *)
Theorem dopest_missing_flag rnxdata goodsats freqnum h0 p t l :
  wf_store rnxdata h0 →
  1 ≤ freqnum → p ∈ goodsats → slot rnxdata t p = Some l →
  field h0 l "flag" = None →
  (∀ rnxout, (dopest polyfit polyval rnxstep rnxdata goodsats freqnum h0).1
             ≠ Ok rnxout) ∧
  ∀ ps1 ps2 ts1 ts2 rnxout hc dc2 h2 st h3,
    goodsats = ps1 ++ p :: ps2 →
    rnxdata.*1 = ts1 ++ t :: ts2 →
    deepcopy rnxdata h0 = (Ok rnxout, hc) →
    sat_loop polyfit polyval rnxstep rnxout 1 ps1 false hc = (Ok dc2, h2) →
    time_loop polyfit polyval rnxstep rnxout 1 p ts1 ([], dc2) h2 = (Ok st, h3) →
    dopest polyfit polyval rnxstep rnxdata goodsats freqnum h0 = (Raise KeyError, h3).
Proof.
  intros Hwf Hf Hp Hslot Hm.
  destruct (deepcopy_spec rnxdata h0 Hwf) as (memo & hc & Hcopy & Hinv & Hall).
  set (rnxout := rename_store memo rnxdata) in *.
  destruct (Hall l (slot_in_store _ _ _ _ Hslot)) as [l' Hl'].
  destruct Hinv as (_ & Hmemo & _). simpl in Hmemo.
  destruct (Hmemo _ _ Hl') as (_ & _ & Hcell).
  assert (Hslot' : slot rnxout t p = Some l').
  { unfold rnxout. rewrite slot_rename, Hslot. simpl. f_equal. by apply rename_memo. }
  assert (Hm' : field hc l' "flag" = None).
  { unfold field in *. by rewrite Hcell. }
  assert (Hrange : range 1 (1 + freqnum) = 1 :: range 2 (1 + freqnum)).
  { unfold range. replace (Z.to_nat (1 + freqnum - 1)) with (S (Z.to_nat (1 + freqnum - 2)))
      by lia. cbn [seq fmap list_fmap]. f_equal.
    rewrite <- fmap_S_seq, <- list_fmap_compose. apply list_fmap_ext.
    intros _ i _. simpl. lia. }
  split.
  - intros rnxout'. unfold dopest. rewrite (bind_Ok _ _ _ _ _ Hcopy). unfold bind.
    pose proof (freq_loop_missing_flag polyfit polyval rnxstep rnxout goodsats
                  1 p t l' (range 1 (1 + freqnum)) false hc Hslot' Hm' Hp) as Hno.
    destruct (freq_loop polyfit polyval rnxstep rnxout goodsats
                (range 1 (1 + freqnum)) false hc) as [[dc| |e] h]; [|done|done].
    destruct (Hno ltac:(apply elem_of_range; lia) dc). done.
  - intros ps1 ps2 ts1 ts2 rnxout' hc' dc2 h2 st h3 Hps Hts Hcopy' Hs1 Ht1.
    rewrite Hcopy in Hcopy'. injection Hcopy' as <- <-.
    assert (Hm3 : field h3 l' "flag" = None).
    { eapply rates_written_missing_flag; [|eapply rates_written_missing_flag; [|exact Hm']].
      - pose proof (time_loop_rates polyfit polyval rnxstep rnxout 1 p ts1 ([], dc2) h2) as H.
        rewrite Ht1 in H. exact H.
      - pose proof (sat_loop_rates polyfit polyval rnxstep rnxout 1 ps1 false hc) as H.
        rewrite Hs1 in H. exact H. }
    unfold dopest. rewrite (bind_Ok _ _ _ _ _ Hcopy). apply bind_Raise_l.
    rewrite Hrange. cbn [freq_loop]. apply bind_Raise_l.
    rewrite Hps, sat_loop_app, (bind_Ok _ _ _ _ _ Hs1). cbn [sat_loop].
    apply bind_Raise_l.
    unfold rnxout at 2. rewrite fst_rename_store, Hts.
    rewrite time_loop_app, (bind_Ok _ _ _ _ _ Ht1). cbn [time_loop].
    apply bind_Raise_l. by eapply visit_missing_flag.
Qed.

End NoFlagRun.

Lemma dopest_skips_other_satellites_witness :
  let h0 := [obs 1 "solo"; obs 2 "solo"] in
  let h1 := (dopest sample_polyfit horner 1000000 (two_sats 0 1) [1] 1 h0).2 in
  ∃ l', slot (two_sats 3 2) 0 2 = Some l' ∧ (length h0 ≤ l')%nat ∧ h1 !! l' = h0 !! 1%nat.
Proof.
  intros h0 h1.
  apply (dopest_skips_other_satellites sample_polyfit horner 1000000 (two_sats 0 1)
           [1] 1 h0 (two_sats 3 2) h1 0 2 1%nat).
  - unfold wf_store. vm_compute. repeat constructor.
  - vm_compute; reflexivity.
  - vm_compute; reflexivity.
  - intros t' p Hp. apply list_elem_of_singleton in Hp as ->.
    unfold slot, two_sats. cbn [epoch_lookup].
    destruct (decide (0 = t')); vm_compute; congruence.
Defined.

Lemma dopest_nothing_to_process_witness :
  let h0 := [obs_no_flag 1; obs_no_phase "end"] in
  ∃ rnxout h1,
    dopest sample_polyfit horner 1000000 (session 2) [] 2 h0 = (Ok rnxout, h1) ∧
    Forall2 (λ e e' : Z * gmap Z nat, e'.1 = e.1 ∧ dom e'.2 = dom e.2)
      (session 2) rnxout ∧
    ∀ t q l, slot (session 2) t q = Some l →
      ∃ l', slot rnxout t q = Some l' ∧ (length h0 ≤ l')%nat ∧ h1 !! l' = h0 !! l.
Proof.
  intros h0.
  apply (dopest_nothing_to_process sample_polyfit horner 1000000 (session 2) [] 2 h0).
  - unfold wf_store. vm_compute. repeat constructor.
  - by left.
Defined.

Lemma dopest_missing_flag_witness :
  let h0 := [obs 1 "start"; obs_no_flag 2] in
  (∀ rnxout, (dopest sample_polyfit horner 1000000 (session 2) [1] 1 h0).1
             ≠ Ok rnxout) ∧
  dopest sample_polyfit horner 1000000 (session 2) [1] 1 h0
  = (Raise KeyError, h0 ++ h0).
Proof.
  intros h0.
  destruct (dopest_missing_flag sample_polyfit horner 1000000 (session 2) [1] 1 h0
              1 1000000 1%nat) as (Hno & Hret).
  - unfold wf_store. vm_compute. repeat constructor.
  - lia.
  - by left.
  - vm_compute; reflexivity.
  - vm_compute; reflexivity.
  - split; [exact Hno|].
    apply (Hret [] [] [0] [] (session_at 2 2) (h0 ++ h0) false (h0 ++ h0)
             ([VFloat 1], false) (h0 ++ h0));
      first [reflexivity | vm_compute; reflexivity].
Defined.

(** ** Where the sentinel goes *)

Lemma marks_written_refl h : marks_written h h.
Proof. split; [done|]. intros l k. by left. Qed.

Lemma marks_written_flag h h' l :
  marks_written h h' → field h' l "flag" = field h l "flag".
Proof.
  intros [_ Hw]. destruct (Hw l "flag") as [->|[Hk _]]; [done|].
  by apply flag_not_rate_key in Hk.
Qed.

Lemma marks_written_trans h1 h2 h3 :
  marks_written h1 h2 → marks_written h2 h3 → marks_written h1 h3.
Proof.
  intros H12 H23. pose proof (λ l, marks_written_flag _ _ l H12) as Hflag.
  destruct H12 as [Hlen1 H1], H23 as [Hlen2 H2]. split; [congruence|]. intros l k.
  destruct (H2 l k) as [->|[Hk [Hx|[Hs (flag & Hfl & Hint)]]]]; [apply H1| |].
  - right. split; [done|]. by left.
  - right. split; [done|]. right. split; [done|]. exists flag.
    by rewrite <- Hflag.
Qed.

Lemma marks_written_float h l f x :
  marks_written h (alter (insert (Dkey f) (VFloat x)) l h).
Proof.
  split; [by rewrite length_alter|]. intros l' k'.
  rewrite field_setitem. case_decide as Hd; [|by left].
  destruct Hd as (-> & -> & _). right. split; [by exists f|]. left. by exists x.
Qed.

Lemma marks_written_sentinel h l f flag :
  field h l "flag" = Some flag → interpolable flag = false →
  marks_written h (alter (insert (Dkey f) sentinel) l h).
Proof.
  intros Hflag Hint. split; [by rewrite length_alter|]. intros l' k'.
  rewrite field_setitem. case_decide as Hd; [|by left].
  destruct Hd as (-> & -> & _). right. split; [by exists f|]. right.
  split; [done|]. by exists flag.
Qed.

Section Marks.
Variable polyfit : list float → list float → Z → exn + list float.
Variable polyval : list float → float → float.
Variable rnxstep : Z.
Variable rnxout : store.

Local Ltac marks_bind :=
  apply preserves_bind; [apply marks_written_trans | |].

Lemma write_back_marks t p f D ks d :
  preserves marks_written (write_back rnxstep rnxout t p f D ks d).
Proof.
  revert d. induction ks as [|k ks IH]; intros d.
  { apply preserves_ret, marks_written_refl. }
  cbn [write_back]. marks_bind.
  { destruct (D !! d); [apply preserves_ret | apply preserves_raise];
      apply marks_written_refl. }
  intros v.
  destruct (epoch_lookup (t - Z.of_nat k * rnxstep) rnxout) as [sats|] eqn:Hs.
  2:{ intros h. apply marks_written_refl. }
  mstep. destruct (sats !! p) as [l|] eqn:Hl.
  2:{ intros h. apply marks_written_refl. }
  mstep. intros h. rewrite bind_setitem.
  eapply marks_written_trans; [|apply IH]. apply marks_written_float.
Qed.

Lemma estimate_marks t p f L :
  preserves marks_written (estimate polyfit polyval rnxstep rnxout t p f L).
Proof.
  unfold estimate. destruct (arc_rates _ _ _ L).
  - apply preserves_raise, marks_written_refl.
  - apply write_back_marks.
Qed.

Lemma visit_record_marks l f st : preserves marks_written (visit_record l f st).
Proof.
  intros h. destruct (field h l "flag") as [flag|] eqn:Hflag.
  2:{ rewrite visit_record_no_flag by done. apply marks_written_refl. }
  destruct st as [L dc]. destruct (interpolable flag) eqn:Hint.
  - destruct (field h l (Lkey f)) as [v|] eqn:Hv.
    + rewrite (visit_record_append l f L dc h flag v) by done.
      apply marks_written_refl.
    + rewrite (visit_record_missing_phase l f (L, dc) h flag) by done.
      apply marks_written_refl.
  - rewrite (visit_record_sentinel l f L dc h flag) by done.
    by eapply marks_written_sentinel.
Qed.

Lemma visit_marks f p t st :
  preserves marks_written (visit polyfit polyval rnxstep rnxout f p t st).
Proof.
  unfold visit. destruct (epoch_lookup t rnxout) as [sats|] eqn:Hs.
  2:{ intros h. apply marks_written_refl. }
  mstep. marks_bind.
  { destruct (sats !! p) as [l|] eqn:Hl.
    - apply visit_record_marks.
    - apply preserves_ret, marks_written_refl. }
  intros st'. destruct (st'.2).
  - marks_bind; [apply estimate_marks|].
    intros _. apply preserves_ret, marks_written_refl.
  - apply preserves_ret, marks_written_refl.
Qed.

Lemma time_loop_marks f p ts st :
  preserves marks_written (time_loop polyfit polyval rnxstep rnxout f p ts st).
Proof.
  revert st. induction ts as [|t ts IH]; intros st; cbn [time_loop].
  - apply preserves_ret, marks_written_refl.
  - marks_bind; [apply visit_marks | apply IH].
Qed.

Lemma sat_loop_marks f ps dc :
  preserves marks_written (sat_loop polyfit polyval rnxstep rnxout f ps dc).
Proof.
  revert dc. induction ps as [|p ps IH]; intros dc; cbn [sat_loop].
  - apply preserves_ret, marks_written_refl.
  - marks_bind; [apply time_loop_marks | intros st; apply IH].
Qed.

Lemma freq_loop_marks goodsats fs dc :
  preserves marks_written (freq_loop polyfit polyval rnxstep rnxout goodsats fs dc).
Proof.
  revert dc. induction fs as [|f fs IH]; intros dc; cbn [freq_loop].
  - apply preserves_ret, marks_written_refl.
  - marks_bind; [apply sat_loop_marks | intros dc'; apply IH].
Qed.

End Marks.

Lemma end_interpolable flag : is_str flag "end" = true → interpolable flag = true.
Proof.
  destruct flag as [x|s]; [done|]. unfold interpolable, is_str.
  intros H. apply bool_decide_eq_true in H as ->. reflexivity.
Qed.

Lemma populated_stable h h' l f :
  marks_written h h' → populated h l f → populated h' l f.
Proof.
  intros Hw Hp flag Hflag. rewrite (marks_written_flag _ _ _ Hw) in Hflag.
  destruct (Hp flag Hflag) as [Hs He]. destruct Hw as [_ Hw].
  destruct (Hw l (Dkey f)) as [->|[_ [Hx|[Hsen (flag' & Hflag' & Hint)]]]]; [done| |].
  - split; intros _; [by right | done].
  - split; [intros _; by left|]. intros Hend%end_interpolable. congruence.
Qed.

(** The last assignment of a write-back that reaches index 0 goes to the
    record of the end epoch, and every assignment is a float. *)
Lemma write_back_floats rnxstep rnxout t p f D ks d h h' l :
  write_back rnxstep rnxout t p f D ks d h = (Ok tt, h') →
  (∃ x, field h l (Dkey f) = Some (VFloat x)) ∨
  ((l < length h)%nat ∧ ∃ k, k ∈ ks ∧ slot rnxout (t - Z.of_nat k * rnxstep) p = Some l) →
  ∃ x, field h' l (Dkey f) = Some (VFloat x).
Proof.
  revert d h. induction ks as [|k0 ks IH]; intros d h Hrun Hl.
  { injection Hrun as <-. destruct Hl as [Hl|(_ & k & Hk & _)]; [done|].
    by apply elem_of_nil in Hk. }
  cbn [write_back] in Hrun. destruct (D !! d) as [v|]; [|done]. mstep_in Hrun.
  destruct (epoch_lookup (t - Z.of_nat k0 * rnxstep) rnxout) as [sats|] eqn:Hs; [|done].
  mstep_in Hrun. destruct (sats !! p) as [l0|] eqn:Hl0; [|done]. mstep_in Hrun.
  apply (IH _ _ Hrun). rewrite field_setitem, length_alter.
  destruct (decide (l = l0)) as [->|Hne].
  - left. rewrite decide_True; [by exists v|]. split_and!; [done | done |].
    destruct Hl as [[x Hx]|[Hlt _]]; [|done].
    unfold field in Hx. destruct (h !! l0) eqn:Hh; [|done].
    by apply lookup_lt_Some in Hh.
  - rewrite decide_False by tauto.
    destruct Hl as [Hx|(Hlt & k & Hk & Hsl)]; [by left|]. right. split; [done|].
    exists k. split; [|done]. apply elem_of_cons in Hk as [->|Hk]; [|done].
    exfalso. apply Hne. unfold slot in Hsl. rewrite Hs in Hsl. simpl in Hsl. congruence.
Qed.

Section Populated.
Variable polyfit : list float → list float → Z → exn + list float.
Variable polyval : list float → float → float.
Variable rnxstep : Z.
Variable rnxout : store.

Lemma visit_populates f p t l st h st' h' :
  slot rnxout t p = Some l →
  visit polyfit polyval rnxstep rnxout f p t st h = (Ok st', h') →
  populated h' l f.
Proof.
  intros Hslot Hrun flag Hflag'.
  pose proof (visit_marks polyfit polyval rnxstep rnxout f p t st h) as Hw.
  rewrite Hrun in Hw. simpl in Hw.
  assert (Hflag : field h l "flag" = Some flag)
    by (by rewrite <- (marks_written_flag _ _ _ Hw)).
  assert (Hlt : (l < length h)%nat).
  { unfold field in Hflag. destruct (h !! l) eqn:Hh; [|done].
    by apply lookup_lt_Some in Hh. }
  apply slot_Some in Hslot as Hsl. destruct Hsl as (sats & Hsats & Hl).
  unfold visit in Hrun. rewrite Hsats in Hrun. mstep_in Hrun. rewrite Hl in Hrun.
  destruct st as [L dc]. destruct (interpolable flag) eqn:Hint.
  - split; [done|]. intros Hend.
    destruct (field h l (Lkey f)) as [v|] eqn:Hv.
    2:{ by rewrite (bind_ReturnFalse _ _ _ _
                      (visit_record_missing_phase l f (L, dc) h flag Hflag Hint Hv))
          in Hrun. }
    rewrite (bind_Ok _ _ _ _ _ (visit_record_append l f L dc h flag v Hflag Hint Hv))
      in Hrun.
    rewrite Hend in Hrun. cbn [snd fst] in Hrun. unfold estimate in Hrun.
    destruct (arc_rates polyfit polyval rnxstep _) as [e|D] eqn:HD.
    { by rewrite bind_raise_l in Hrun. }
    apply arc_rates_inr in HD as (_ & _ & _ & _ & HlenD & _).
    rewrite length_app in HlenD. simpl in HlenD.
    unfold bind in Hrun.
    destruct (write_back rnxstep rnxout t p f D (reverse (seq 0 (length D))) 0 h)
      as [[[]| |e] h1] eqn:Hwb; [|done|done].
    injection Hrun as _ <-.
    eapply write_back_floats; [exact Hwb|]. right. split; [done|].
    exists 0%nat. split.
    + apply elem_of_reverse, elem_of_seq. lia.
    + replace (t - Z.of_nat 0 * rnxstep) with t by lia. done.
  - rewrite (bind_Ok _ _ _ _ _ (visit_record_sentinel l f L dc h flag Hflag Hint))
      in Hrun.
    cbn [snd] in Hrun. injection Hrun as _ <-.
    split; [|intros Hend%end_interpolable; congruence].
    intros _. left. rewrite field_setitem. by rewrite decide_True.
Qed.

Lemma time_loop_populates f p ts st h st' h' t l :
  time_loop polyfit polyval rnxstep rnxout f p ts st h = (Ok st', h') →
  t ∈ ts → slot rnxout t p = Some l → populated h' l f.
Proof.
  revert st h. induction ts as [|t0 ts IH]; intros st h Hrun Ht Hslot.
  { by apply elem_of_nil in Ht. }
  cbn [time_loop] in Hrun. unfold bind in Hrun.
  destruct (visit polyfit polyval rnxstep rnxout f p t0 st h) as [[st1| |e] h1] eqn:Hv;
    [|done|done].
  apply elem_of_cons in Ht as [->|Ht]; [|by eapply IH].
  eapply populated_stable; [|by eapply visit_populates].
  pose proof (time_loop_marks polyfit polyval rnxstep rnxout f p ts st1 h1) as Hw.
  by rewrite Hrun in Hw.
Qed.

Lemma sat_loop_populates f ps dc h dc' h' p t l :
  sat_loop polyfit polyval rnxstep rnxout f ps dc h = (Ok dc', h') →
  p ∈ ps → slot rnxout t p = Some l → populated h' l f.
Proof.
  revert dc h. induction ps as [|p0 ps IH]; intros dc h Hrun Hp Hslot.
  { by apply elem_of_nil in Hp. }
  cbn [sat_loop] in Hrun. unfold bind in Hrun.
  destruct (time_loop polyfit polyval rnxstep rnxout f p0 rnxout.*1 ([], dc) h)
    as [[st1| |e] h1] eqn:Ht; [|done|done].
  apply elem_of_cons in Hp as [->|Hp]; [|by eapply IH].
  eapply populated_stable.
  - pose proof (sat_loop_marks polyfit polyval rnxstep rnxout f ps st1.2 h1) as Hw.
    rewrite Hrun in Hw. exact Hw.
  - eapply time_loop_populates; [exact Ht | | exact Hslot]. by eapply slot_epoch.
Qed.

Lemma freq_loop_populates goodsats fs dc h dc' h' f p t l :
  freq_loop polyfit polyval rnxstep rnxout goodsats fs dc h = (Ok dc', h') →
  f ∈ fs → p ∈ goodsats → slot rnxout t p = Some l → populated h' l f.
Proof.
  revert dc h. induction fs as [|f0 fs IH]; intros dc h Hrun Hf Hp Hslot.
  { by apply elem_of_nil in Hf. }
  cbn [freq_loop] in Hrun. unfold bind in Hrun.
  destruct (sat_loop polyfit polyval rnxstep rnxout f0 goodsats dc h)
    as [[dc1| |e] h1] eqn:Hs; [|done|done].
  apply elem_of_cons in Hf as [->|Hf]; [|by eapply IH].
  eapply populated_stable.
  - pose proof (freq_loop_marks polyfit polyval rnxstep rnxout goodsats fs dc1 h1) as Hw.
    rewrite Hrun in Hw. exact Hw.
  - by eapply sat_loop_populates.
Qed.

End Populated.

Lemma not_interpolable flag :
  interpolable flag = false → flag = VStr "solo" ∨ flag = VStr "slip".
Proof.
  unfold interpolable. intros H. apply negb_false_iff, orb_true_iff in H.
  destruct flag as [x|s]; [by destruct H|]. unfold is_str in H.
  destruct H as [H|H]; apply bool_decide_eq_true in H as ->; [by left | by right].
Qed.

Section PopulatedRun.
Variable polyfit : list float → list float → Z → exn + list float.
Variable polyval : list float → float → float.
Variable rnxstep : Z.

(** X6. After a run that completes, for every processed band and every
    satellite of [goodsats], the record of a 'solo' or 'slip' epoch holds
    a rate value under the band's rate key, and the record of an 'end'
    epoch holds a float there: the end of every arc has a number. *)
Theorem dopest_populates rnxdata goodsats freqnum h0 rnxout h1 f p t l flag :
  wf_store rnxdata h0 →
  dopest polyfit polyval rnxstep rnxdata goodsats freqnum h0 = (Ok rnxout, h1) →
  1 ≤ f ≤ freqnum → p ∈ goodsats →
  slot rnxdata t p = Some l → field h0 l "flag" = Some flag →
  ∃ l', slot rnxout t p = Some l' ∧
    (flag = VStr "solo" ∨ flag = VStr "slip" → is_rate (field h1 l' (Dkey f))) ∧
    (flag = VStr "end" → ∃ x, field h1 l' (Dkey f) = Some (VFloat x)).
Proof.
  intros Hwf Hrun Hf Hp Hslot Hflag.
  destruct (dopest_unfold polyfit polyval rnxstep rnxdata goodsats freqnum h0 Hwf)
    as (memo & hc & Hinv & Hall & Hw & Hd).
  rewrite Hrun in Hd.
  destruct (freq_loop polyfit polyval rnxstep (rename_store memo rnxdata) goodsats
              (range 1 (1 + freqnum)) false hc) as [[dc| |e] h2] eqn:Hloop;
    simpl in *; [|done|done].
  injection Hd as -> Hh. subst h2.
  destruct (Hall l (slot_in_store _ _ _ _ Hslot)) as [l' Hl'].
  destruct Hinv as (_ & Hmemo & _). simpl in Hmemo.
  destruct (Hmemo _ _ Hl') as (_ & _ & Hcell).
  assert (Hslot' : slot (rename_store memo rnxdata) t p = Some l').
  { rewrite slot_rename, Hslot. simpl. f_equal. by apply rename_memo. }
  exists l'. split; [done|].
  assert (Hpop : populated h1 l' f).
  { eapply freq_loop_populates; [exact Hloop | | exact Hp | exact Hslot'].
    apply elem_of_range. lia. }
  assert (Hflag' : field h1 l' "flag" = Some flag).
  { destruct Hw as [_ Hw]. destruct (Hw l' "flag") as [->|(_ & (f' & _ & Hk) & _)].
    - unfold field. by rewrite Hcell.
    - by apply flag_ne_Dkey in Hk. }
  destruct (Hpop flag Hflag') as [Hs He]. split.
  - intros [->| ->]; by apply Hs.
  - intros ->. by apply He.
Qed.

(** X7. The string 'NaN' is only ever assigned to records flagged 'solo'
    or 'slip': where the result of a run that completes holds it and the
    input did not, the key is the rate key of a processed band and the
    record is flagged 'solo' or 'slip'. *)
Theorem sentinel_only_at_isolated rnxdata goodsats freqnum h0 rnxout h1 t p l l' k :
  wf_store rnxdata h0 →
  dopest polyfit polyval rnxstep rnxdata goodsats freqnum h0 = (Ok rnxout, h1) →
  slot rnxdata t p = Some l → slot rnxout t p = Some l' →
  field h1 l' k = Some (VStr "NaN") →
  field h0 l k = Some (VStr "NaN") ∨
  (rate_key freqnum k ∧
   (field h0 l "flag" = Some (VStr "solo") ∨ field h0 l "flag" = Some (VStr "slip"))).
Proof.
  intros Hwf Hrun Hslot Hslot' Hnan.
  destruct (dopest_unfold polyfit polyval rnxstep rnxdata goodsats freqnum h0 Hwf)
    as (memo & hc & Hinv & Hall & Hw & Hd).
  rewrite Hrun in Hd.
  pose proof (freq_loop_marks polyfit polyval rnxstep (rename_store memo rnxdata)
                goodsats (range 1 (1 + freqnum)) false hc) as Hm.
  destruct (freq_loop polyfit polyval rnxstep (rename_store memo rnxdata) goodsats
              (range 1 (1 + freqnum)) false hc) as [[dc| |e] h2];
    simpl in *; [|done|done].
  injection Hd as -> Hh. subst h2.
  destruct (Hall l (slot_in_store _ _ _ _ Hslot)) as [l'' Hl''].
  rewrite slot_rename, Hslot in Hslot'. simpl in Hslot'.
  rewrite (rename_memo _ _ _ Hl'') in Hslot'. injection Hslot' as ->.
  destruct Hinv as (_ & Hmemo & _). simpl in Hmemo.
  destruct (Hmemo _ _ Hl'') as (_ & _ & Hcell).
  assert (Hcopy : ∀ k', field hc l' k' = field h0 l k').
  { intros k'. unfold field. by rewrite Hcell. }
  destruct Hw as [_ Hw]. destruct (Hw l' k) as [Heq|(_ & Hk & _)].
  { left. by rewrite <- Hcopy, <- Heq. }
  destruct Hm as [_ Hm].
  destruct (Hm l' k) as [Heq|[_ [[x Hx]|[_ (flag & Hflag & Hint)]]]].
  - left. by rewrite <- Hcopy, <- Heq.
  - congruence.
  - right. split; [done|]. rewrite <- Hcopy, Hflag.
    destruct (not_interpolable _ Hint) as [->| ->]; [by left | by right].
Qed.

End PopulatedRun.

Lemma dopest_populates_witness :
  let h0 := [obs 1 "start"; obs 2 "end"] in
  let h1 := (dopest sample_polyfit horner 1000000 (session 2) [1] 1 h0).2 in
  ∃ l', slot (session_at 2 2) 1000000 1 = Some l' ∧
    (VStr "end" = VStr "solo" ∨ VStr "end" = VStr "slip" →
     is_rate (field h1 l' (Dkey 1))) ∧
    (VStr "end" = VStr "end" → ∃ x, field h1 l' (Dkey 1) = Some (VFloat x)).
Proof.
  intros h0 h1.
  apply (dopest_populates sample_polyfit horner 1000000 (session 2) [1] 1 h0
           (session_at 2 2) h1 1 1 1000000 1%nat (VStr "end")).
  - unfold wf_store. vm_compute. repeat constructor.
  - vm_compute; reflexivity.
  - lia.
  - by left.
  - vm_compute; reflexivity.
  - vm_compute; reflexivity.
Defined.

Lemma sentinel_only_at_isolated_witness :
  let h0 := [obs 1 "solo"; obs 2 "solo"] in
  field h0 0 "D1" = Some (VStr "NaN") ∨
  (rate_key 1 "D1" ∧
   (field h0 0 "flag" = Some (VStr "solo") ∨ field h0 0 "flag" = Some (VStr "slip"))).
Proof.
  intros h0.
  apply (sentinel_only_at_isolated sample_polyfit horner 1000000 (two_sats 0 1) [1] 1 h0
           (two_sats 3 2)
           (dopest sample_polyfit horner 1000000 (two_sats 0 1) [1] 1 h0).2
           0 1 0%nat 3%nat "D1").
  - unfold wf_store. vm_compute. repeat constructor.
  - vm_compute; reflexivity.
  - vm_compute; reflexivity.
  - vm_compute; reflexivity.
  - vm_compute; reflexivity.
Defined.

(** ** A complete arc, from 'start' to 'end' *)

Lemma float_array_floats xs : float_array (VFloat <$> xs) = Some xs.
Proof.
  induction xs as [|x xs IH]; [done|].
  change (cons x <$> float_array (VFloat <$> xs) = Some (x :: xs)). by rewrite IH.
Qed.

Section Arc.
Variable polyfit : list float → list float → Z → exn + list float.
Variable polyval : list float → float → float.
Variable rnxstep : Z.
Variable rnxout : store.
Variables f p t0 : Z.
Variable ls : list nat.
Variable vs : list value.
Variable h : list (gmap string value).

Hypothesis arc_long : (2 ≤ length ls)%nat.
Hypothesis arc_phases : length vs = length ls.
Hypothesis arc_slot :
  ∀ i l, ls !! i = Some l → slot rnxout (t0 + Z.of_nat i * rnxstep) p = Some l.
Hypothesis arc_flags :
  ∀ i l, ls !! i = Some l → field h l "flag" = Some (VStr (arc_flag (length ls) i)).
Hypothesis arc_phase :
  ∀ i l v, ls !! i = Some l → vs !! i = Some v → field h l (Lkey f) = Some v.

Lemma arc_visit_record i l v L dc :
  ls !! i = Some l → vs !! i = Some v →
  visit_record l f (L, dc) h
  = (Ok ((if decide (i = 0%nat) then [] else L) ++ [v],
         bool_decide (S i = length ls)), h).
Proof.
  intros Hl Hv. pose proof (arc_flags i l Hl) as Hflag.
  pose proof (arc_phase i l v Hl Hv) as Hphase. unfold arc_flag in Hflag.
  destruct (decide (i = 0%nat)) as [->|Hi0].
  - rewrite (visit_record_append l f L dc h _ v Hflag eq_refl Hphase).
    rewrite bool_decide_eq_false_2 by lia. reflexivity.
  - destruct (decide (S i = length ls)) as [Hend|Hmid].
    + rewrite (visit_record_append l f L dc h _ v Hflag eq_refl Hphase).
      rewrite bool_decide_eq_true_2 by done. reflexivity.
    + rewrite (visit_record_append l f L dc h _ v Hflag eq_refl Hphase).
      rewrite bool_decide_eq_false_2 by done. reflexivity.
Qed.

Lemma arc_visit_collect i l v L dc :
  ls !! i = Some l → vs !! i = Some v → S i ≠ length ls →
  visit polyfit polyval rnxstep rnxout f p (t0 + Z.of_nat i * rnxstep) (L, dc) h
  = (Ok ((if decide (i = 0%nat) then [] else L) ++ [v], false), h).
Proof.
  intros Hl Hv Hi. pose proof (arc_slot i l Hl) as Hs.
  apply slot_Some in Hs as (sats & Hsats & Hp).
  unfold visit. rewrite Hsats. mstep. rewrite Hp.
  rewrite (bind_Ok _ _ _ _ _ (arc_visit_record i l v L dc Hl Hv)).
  rewrite bool_decide_eq_false_2 by done. reflexivity.
Qed.

Lemma arc_collect m :
  (1 ≤ m < length ls)%nat → ∀ L dc,
  time_loop polyfit polyval rnxstep rnxout f p
    ((λ i : nat, t0 + Z.of_nat i * rnxstep) <$> seq 0 m) (L, dc) h
  = (Ok (take m vs, false), h).
Proof.
  induction m as [|m IH]; intros Hm L dc; [lia|].
  rewrite seq_S, fmap_app, time_loop_app. simpl.
  destruct (ls !! m) as [l|] eqn:Hl.
  2:{ apply lookup_ge_None in Hl. lia. }
  destruct (vs !! m) as [v|] eqn:Hv.
  2:{ apply lookup_ge_None in Hv. lia. }
  rewrite (take_S_r _ _ _ Hv).
  destruct m as [|m].
  - simpl. rewrite bind_ret_l. cbn [time_loop].
    rewrite (bind_Ok _ _ _ _ _ (arc_visit_collect 0 l v L dc Hl Hv ltac:(lia))).
    reflexivity.
  - rewrite (bind_Ok _ _ _ _ _ (IH ltac:(lia) L dc)). cbn [time_loop].
    rewrite (bind_Ok _ _ _ _ _ (arc_visit_collect (S m) l v _ false Hl Hv ltac:(lia))).
    reflexivity.
Qed.

Lemma arc_write_back_targets :
  Forall2 (λ k l, slot rnxout
                    (t0 + Z.of_nat (length ls - 1) * rnxstep - Z.of_nat k * rnxstep) p
                  = Some l)
    (reverse (seq 0 (length ls))) ls.
Proof.
  apply Forall2_same_length_lookup. split.
  { by rewrite length_reverse, length_seq. }
  intros i k l Hk Hl. apply lookup_lt_Some in Hl as Hlt.
  rewrite reverse_lookup in Hk by (rewrite length_seq; lia).
  rewrite length_seq in Hk. apply lookup_seq in Hk as [-> _].
  rewrite <- (arc_slot i l Hl). f_equal.
  assert (Z.of_nat (length ls - 1)
          = Z.of_nat (0 + (length ls - S i)) + Z.of_nat i) as -> by lia.
  lia.
Qed.

Lemma arc_close l v L dc :
  ls !! (length ls - 1)%nat = Some l → vs !! (length ls - 1)%nat = Some v →
  length L = (length ls - 1)%nat →
  visit polyfit polyval rnxstep rnxout f p
    (t0 + Z.of_nat (length ls - 1) * rnxstep) (L, dc) h
  = match arc_rates polyfit polyval rnxstep (L ++ [v]) with
    | inl e => (Raise e, h)
    | inr D => (Ok ([], false), foldl (assign f) h (zip ls D))
    end.
Proof.
  intros Hl Hv HL. pose proof (arc_slot _ l Hl) as Hs.
  apply slot_Some in Hs as (sats & Hsats & Hp).
  unfold visit. rewrite Hsats. mstep. rewrite Hp.
  rewrite (bind_Ok _ _ _ _ _ (arc_visit_record _ l v L dc Hl Hv)).
  rewrite decide_False by lia.
  rewrite bool_decide_eq_true_2 by lia. cbn [fst snd]. unfold estimate.
  destruct (arc_rates polyfit polyval rnxstep (L ++ [v])) as [e|D] eqn:HD.
  { by rewrite bind_raise_l. }
  apply arc_rates_inr in HD as (_ & _ & _ & _ & HlenD & _).
  rewrite length_app in HlenD. simpl in HlenD.
  assert (HD : length D = length ls) by lia. rewrite HD.
  rewrite (bind_Ok _ _ _ _ _
             (write_back_Ok rnxstep rnxout _ p f D _ ls 0 h arc_write_back_targets
                ltac:(rewrite length_reverse, length_seq; lia))).
  by rewrite drop_0.
Qed.

(** The visits of a complete arc: nothing is written until the 'end'
    epoch, where the rates of one fit over all the phases of the arc are
    assigned, rate [i] to the record of entry [i]. *)
Lemma time_loop_arc L0 dc0 :
  time_loop polyfit polyval rnxstep rnxout f p
    ((λ i : nat, t0 + Z.of_nat i * rnxstep) <$> seq 0 (length ls)) (L0, dc0) h
  = match arc_rates polyfit polyval rnxstep vs with
    | inl e => (Raise e, h)
    | inr D => (Ok ([], false), foldl (assign f) h (zip ls D))
    end.
Proof.
  assert (∃ n, length ls = S n) as [n Hn] by (exists (length ls - 1)%nat; lia).
  rewrite Hn, seq_S, fmap_app, time_loop_app.
  rewrite (bind_Ok _ _ _ _ _ (arc_collect n ltac:(lia) L0 dc0)).
  simpl. cbn [time_loop].
  destruct (ls !! n) as [l|] eqn:Hl.
  2:{ apply lookup_ge_None in Hl. lia. }
  destruct (vs !! n) as [v|] eqn:Hv.
  2:{ apply lookup_ge_None in Hv. lia. }
  assert (Hvs : take n vs ++ [v] = vs).
  { rewrite <- (take_S_r _ _ _ Hv). apply take_ge. lia. }
  pose proof (arc_close l v (take n vs) false) as Hc.
  replace (length ls - 1)%nat with n in Hc by lia.
  rewrite Hvs in Hc. specialize (Hc Hl Hv ltac:(rewrite length_take; lia)).
  destruct (arc_rates polyfit polyval rnxstep vs) as [e|D].
  - by apply bind_Raise_l.
  - by rewrite (bind_Ok _ _ _ _ _ Hc).
Qed.

End Arc.

Section ArcRun.
Variable polyfit : list float → list float → Z → exn + list float.
Variable polyval : list float → float → float.
Variable rnxstep : Z.
Variable rnxout : store.

(** X8. The time loop over a complete arc of satellite [p] (entries one
    step apart, the first flagged 'start', the last 'end', those between
    'none', each with a phase value), whatever the buffer and the
    condition were before: no record is assigned before the 'end' epoch;
    there all the phases of the arc, and only they, go into one fit; if
    that fails the exception leaves the loop and no record has changed;
    otherwise rate [i] is assigned to the record of entry [i], and the
    buffer is empty and the condition False afterwards. *)
Theorem complete_arc f p t0 ls vs h L0 dc0 :
  (2 ≤ length ls)%nat → length vs = length ls →
  (∀ i l, ls !! i = Some l → slot rnxout (t0 + Z.of_nat i * rnxstep) p = Some l) →
  (∀ i l, ls !! i = Some l → field h l "flag" = Some (VStr (arc_flag (length ls) i))) →
  (∀ i l v, ls !! i = Some l → vs !! i = Some v → field h l (Lkey f) = Some v) →
  time_loop polyfit polyval rnxstep rnxout f p
    ((λ i : nat, t0 + Z.of_nat i * rnxstep) <$> seq 0 (length ls)) (L0, dc0) h
  = match arc_rates polyfit polyval rnxstep vs with
    | inl e => (Raise e, h)
    | inr D => (Ok ([], false), foldl (assign f) h (zip ls D))
    end.
Proof. intros. by apply time_loop_arc. Qed.

(** X9. The rates of a complete arc. When the phases of the arc are the
    floats [xs], its entries are different records and the fit of [xs]
    over the indices 0 .. n-1 gives [coeff], the time loop over the arc
    completes, and afterwards the record of entry [i] holds, under the
    rate key of the band, (xs[i] - polyval(coeff, i + 0.01)) divided by
    (0.01 * float(rnxstep.seconds)); every other field of the heap is what
    it was. *)
Theorem complete_arc_rates f p t0 ls xs coeff h L0 dc0 :
  (2 ≤ length ls)%nat → length xs = length ls → NoDup ls →
  (∀ i l, ls !! i = Some l → slot rnxout (t0 + Z.of_nat i * rnxstep) p = Some l) →
  (∀ i l, ls !! i = Some l → field h l "flag" = Some (VStr (arc_flag (length ls) i))) →
  (∀ i l x, ls !! i = Some l → xs !! i = Some x →
     field h l (Lkey f) = Some (VFloat x)) →
  polyfit (linspace0 (length ls)) xs 19 = inr coeff →
  ∃ h',
    time_loop polyfit polyval rnxstep rnxout f p
      ((λ i : nat, t0 + Z.of_nat i * rnxstep) <$> seq 0 (length ls)) (L0, dc0) h
    = (Ok ([], false), h') ∧
    (∀ i l x, ls !! i = Some l → xs !! i = Some x →
       field h' l (Dkey f)
       = Some (VFloat (spec_rate polyval coeff
                         (float_of_int (td_seconds rnxstep)) i x))) ∧
    (∀ l k, ¬ (l ∈ ls ∧ k = Dkey f) → field h' l k = field h l k).
Proof.
  intros Hn Hlen Hnd Hslot Hflag Hphase Hfit.
  pose proof (time_loop_arc polyfit polyval rnxstep rnxout f p t0 ls (VFloat <$> xs) h
                Hn ltac:(by rewrite length_fmap) Hslot Hflag) as Hrun.
  specialize (Hrun ltac:(intros i l v Hl Hv; rewrite list_lookup_fmap in Hv;
                         destruct (xs !! i) as [x|] eqn:Hx; [|done];
                         injection Hv as <-; by eapply Hphase) L0 dc0).
  destruct (arc_rates polyfit polyval rnxstep (VFloat <$> xs)) as [e|D] eqn:HD.
  { exfalso. unfold arc_rates in HD. rewrite float_array_floats in HD.
    rewrite Hlen, Hfit in HD. done. }
  apply arc_rates_inr in HD as (Lf & coeff' & HLf & Hfit' & HlenD & Hrate).
  rewrite float_array_floats in HLf. injection HLf as <-.
  rewrite length_fmap, Hlen, Hfit in Hfit'. injection Hfit' as <-.
  rewrite length_fmap in HlenD.
  eexists. split; [exact Hrun|]. split.
  - intros i l x Hl Hx. eapply (field_foldl_assign f _ h i l).
    + rewrite fst_zip by lia. done.
    + apply lookup_zip_Some. split; [done|]. by apply Hrate.
    + pose proof (Hflag i l Hl) as Hfl. unfold field in Hfl.
      destruct (h !! l) eqn:Hh; [|done]. by apply lookup_lt_Some in Hh.
  - intros l k Hnot. apply field_foldl_assign_other.
    intros [Hin ->]. apply Hnot. split; [|done].
    rewrite fst_zip in Hin by lia. done.
Qed.

End ArcRun.

Lemma complete_arc_witness :
  let h := [obs 1 "start"; obs 2 "none"; obs 3 "end"] in
  let ls := [0; 1; 2]%nat in
  let vs := [VFloat 1; VFloat 2; VFloat 3] in
  time_loop sample_polyfit horner 1000000 (session 3) 1 1
    ((λ i : nat, 0 + Z.of_nat i * 1000000) <$> seq 0 (length ls))
    ([VFloat 7], true) h
  = match arc_rates sample_polyfit horner 1000000 vs with
    | inl e => (Raise e, h)
    | inr D => (Ok ([], false), foldl (assign 1) h (zip ls D))
    end.
Proof.
  intros h ls vs.
  apply (complete_arc sample_polyfit horner 1000000 (session 3) 1 1 0 ls vs h
           [VFloat 7] true).
  - simpl. lia.
  - reflexivity.
  - intros [|[|[|i]]] l Hl; simpl in Hl; [| | |done];
      injection Hl as <-; vm_compute; reflexivity.
  - intros [|[|[|i]]] l Hl; simpl in Hl; [| | |done];
      injection Hl as <-; vm_compute; reflexivity.
  - intros [|[|[|i]]] l v Hl Hv; simpl in Hl, Hv; [| | |done];
      injection Hl as <-; injection Hv as <-; vm_compute; reflexivity.
Defined.

Lemma complete_arc_rates_witness :
  let h := [obs 1 "start"; obs 2 "none"; obs 3 "end"] in
  let ls := [0; 1; 2]%nat in
  let xs := [1; 2; 3]%float in
  let coeff := replicate 19 0%float ++ [3%float] in
  ∃ h',
    time_loop sample_polyfit horner 1000000 (session 3) 1 1
      ((λ i : nat, 0 + Z.of_nat i * 1000000) <$> seq 0 (length ls)) ([], false) h
    = (Ok ([], false), h') ∧
    (∀ i l x, ls !! i = Some l → xs !! i = Some x →
       field h' l (Dkey 1)
       = Some (VFloat (spec_rate horner coeff
                         (float_of_int (td_seconds 1000000)) i x))) ∧
    (∀ l k, ¬ (l ∈ ls ∧ k = Dkey 1) → field h' l k = field h l k).
Proof.
  intros h ls xs coeff.
  apply (complete_arc_rates sample_polyfit horner 1000000 (session 3) 1 1 0 ls xs coeff h
           [] false).
  - simpl. lia.
  - reflexivity.
  - compute_done.
  - intros [|[|[|i]]] l Hl; simpl in Hl; [| | |done];
      injection Hl as <-; vm_compute; reflexivity.
  - intros [|[|[|i]]] l Hl; simpl in Hl; [| | |done];
      injection Hl as <-; vm_compute; reflexivity.
  - intros [|[|[|i]]] l x Hl Hx; simpl in Hl, Hx; [| | |done];
      injection Hl as <-; injection Hx as <-; vm_compute; reflexivity.
  - vm_compute; reflexivity.
Defined.

(** * Fixed-width fields of the report files *)

(** ** Text *)

Lemma first_index_app c a b : c ∉ a → first_index c (a ++ c :: b) = Some (length a).
Proof.
  induction a as [|x a IH]; intros Hc; simpl.
  - by rewrite decide_True.
  - apply not_elem_of_cons in Hc as [Hx Hc]. rewrite decide_False by done.
    by rewrite IH.
Qed.

Lemma first_index_None c s : first_index c s = None ↔ c ∉ s.
Proof.
  induction s as [|x s IH]; simpl.
  - split; [intros _; apply not_elem_of_nil | done].
  - rewrite not_elem_of_cons. destruct (decide (x = c)) as [->|Hx].
    + split; [done | intros [? _]; done].
    + rewrite fmap_None, IH. split; [by split | by intros [_ ?]].
Qed.

Lemma first_index_Some c s i :
  first_index c s = Some i → ∃ a b, s = a ++ c :: b ∧ (c ∉ a) ∧ i = length a.
Proof.
  revert i. induction s as [|x s IH]; intros i; simpl; [done|].
  destruct (decide (x = c)) as [->|Hx].
  - intros [= <-]. exists [], s. split_and!; [done | apply not_elem_of_nil | done].
  - destruct (first_index c s) as [j|]; [|done]. intros [= <-].
    destruct (IH j eq_refl) as (a & b & -> & Hc & ->).
    exists (x :: a), b. split_and!; [done | | done].
    apply not_elem_of_cons. by split.
Qed.

Lemma index_app c a b : c ∉ a → index c (a ++ c :: b) = Done (length a).
Proof. intros Hc. unfold index. by rewrite first_index_app. Qed.

Lemma index_ValueError c s : index c s = ValueError ↔ c ∉ s.
Proof.
  unfold index. rewrite <- first_index_None.
  destruct (first_index c s); split; done.
Qed.

Lemma replicate_snoc {A} n (x : A) l : replicate n x ++ x :: l = x :: replicate n x ++ l.
Proof. induction n as [|n IH]; [done|]. simpl. by rewrite IH. Qed.

(** ** The two loops *)

Lemma pad_zeros_run frac fuel dot pos :
  (dot ≤ length pos)%nat → (frac - length (drop dot pos) ≤ fuel)%nat →
  pad_zeros frac fuel dot pos
  = Done (pos ++ replicate (frac - length (drop dot pos)) "0"%char).
Proof.
  unfold pad_zeros. revert pos. induction fuel as [|fuel IH]; intros pos Hdot Hfuel.
  - simpl. rewrite bool_decide_eq_false_2 by lia.
    replace (frac - length (drop dot pos))%nat with 0%nat by lia.
    by rewrite app_nil_r.
  - simpl. case_bool_decide as Hlt.
    + change (while fuel (λ pos, bool_decide (length (drop dot pos) < frac)%nat)
                (λ pos, mret (pos ++ ["0"%char])) (pos ++ ["0"%char])
              = Done (pos ++ replicate (frac - length (drop dot pos)) "0"%char)).
      assert (Hlen : length (drop dot (pos ++ ["0"%char]))
                     = S (length (drop dot pos))).
      { rewrite !length_drop, length_app. simpl. lia. }
      rewrite IH; [|rewrite length_app; simpl; lia | lia].
      rewrite Hlen, <- app_assoc. f_equal. f_equal.
      replace (frac - length (drop dot pos))%nat
        with (S (frac - S (length (drop dot pos)))) by lia.
      reflexivity.
    + replace (frac - length (drop dot pos))%nat with 0%nat by lia.
      by rewrite app_nil_r.
Qed.

Lemma pad_left_run int fuel a r :
  "."%char ∉ a → (int - length a ≤ fuel)%nat →
  pad_left int fuel (a ++ "."%char :: r, length a)
  = Done (replicate (int - length a) " "%char ++ a ++ "."%char :: r,
          (int - length a + length a)%nat).
Proof.
  unfold pad_left. revert a. induction fuel as [|fuel IH]; intros a Ha Hfuel.
  - simpl. rewrite take_app_length. rewrite bool_decide_eq_false_2 by lia.
    by replace (int - length a)%nat with 0%nat by lia.
  - simpl. rewrite take_app_length. case_bool_decide as Hlt.
    + change (" "%char :: a ++ "."%char :: r)
        with ((" "%char :: a) ++ "."%char :: r).
      rewrite index_app.
      2:{ apply not_elem_of_cons. split; [done|done]. }
      change (while fuel
                (λ st : list ascii * nat, bool_decide (length (take st.2 st.1) < int)%nat)
                (λ st, let pos := " "%char :: st.1 in
                       dot ← index "." pos; mret (pos, dot))
                ((" "%char :: a) ++ "."%char :: r, length (" "%char :: a))
              = Done (replicate (int - length a) " "%char ++ a ++ "."%char :: r,
                      (int - length a + length a)%nat)).
      rewrite IH; [|apply not_elem_of_cons; by split | simpl; lia].
      simpl length. replace (int - length a)%nat with (S (int - S (length a))) by lia.
      f_equal. f_equal.
      * simpl. by rewrite replicate_snoc.
      * lia.
    + by replace (int - length a)%nat with 0%nat by lia.
Qed.

(** ** One field *)

(** The decimals of a field of [frac - 1] decimals: the first of [b],
    filled up with zeros. *)
Lemma decimals_cut n (b : list ascii) :
  (n < length b)%nat → take n (b ++ replicate n "0"%char) = take n b.
Proof. intros H. rewrite take_app_le by lia. done. Qed.

Lemma decimals_fill n (b : list ascii) :
  (length b ≤ n)%nat →
  take n (b ++ replicate n "0"%char) = b ++ replicate (n - length b) "0"%char.
Proof.
  intros H. rewrite take_app_ge by lia. rewrite take_replicate.
  f_equal. f_equal. lia.
Qed.

Lemma fixed_field_run frac int fuel a b :
  "."%char ∉ a → (1 ≤ frac)%nat → (frac ≤ fuel)%nat → (int ≤ fuel)%nat →
  fixed_field frac int fuel (a ++ "."%char :: b)
  = Done (replicate (int - length a) " "%char ++ a ++
          "."%char :: take (frac - 1) (b ++ replicate (frac - 1) "0"%char)).
Proof.
  intros Ha Hfrac Hf1 Hf2. unfold fixed_field. rewrite index_app by done.
  change (mbind ?k (Done ?x)) with (k x). cbv beta.
  rewrite drop_app_length.
  assert (Hpad : pad_zeros frac fuel (length a)
                   (if decide (frac < length ("."%char :: b))%nat
                    then take (length a + frac) (a ++ "."%char :: b)
                    else a ++ "."%char :: b)
                 = Done (a ++ "."%char ::
                           take (frac - 1) (b ++ replicate (frac - 1) "0"%char))).
  { destruct (decide (frac < length ("."%char :: b))%nat) as [Hlt|Hge];
      [simpl in Hlt | simpl in Hge].
    - rewrite take_app_add. destruct frac as [|n]; [lia|]. simpl.
      replace (n - 0)%nat with n by lia.
      rewrite pad_zeros_run.
      + rewrite drop_app_length. simpl. rewrite length_take.
        replace (n - n `min` length b)%nat with 0%nat by lia.
        rewrite app_nil_r. rewrite decimals_cut by lia. done.
      + rewrite length_app. lia.
      + rewrite drop_app_length. simpl. rewrite length_take. lia.
    - rewrite pad_zeros_run.
      + rewrite drop_app_length. simpl. rewrite <- app_assoc. simpl.
        rewrite decimals_fill by lia. do 5 f_equal. lia.
      + rewrite length_app. lia.
      + rewrite drop_app_length. simpl. lia. }
  rewrite Hpad. change (mbind ?k (Done ?x)) with (k x). cbv beta.
  rewrite pad_left_run by (done || lia). reflexivity.
Qed.

Lemma fixed_field_no_dot frac int fuel s :
  "."%char ∉ s → fixed_field frac int fuel s = ValueError.
Proof.
  intros Hs. apply index_ValueError in Hs. unfold fixed_field. by rewrite Hs.
Qed.

Lemma text_split s :
  "."%char ∈ s → ∃ a b, s = a ++ "."%char :: b ∧ "."%char ∉ a.
Proof.
  intros Hs. destruct (first_index "." s) as [i|] eqn:Hi.
  - apply first_index_Some in Hi as (a & b & -> & Ha & _). by exists a, b.
  - by apply first_index_None in Hi.
Qed.

(** X10. A coordinate of the GPS report and a vector component of the
    results file, on a text with integer part [a] (no '.') and decimals
    [b]: the decimals are cut, not rounded, to the first 6 (3), or filled
    up with zeros to 6 (3); the integer part is padded with blanks on the
    left to 9 (10) characters and never cut; the coordinate is followed by
    one blank. *)
Theorem field_format fuel a b :
  "."%char ∉ a → (10 ≤ fuel)%nat →
  gps_coord fuel (a ++ "."%char :: b)
  = Done (replicate (9 - length a) " "%char ++ a ++
          "."%char :: take 6 (b ++ replicate 6 "0"%char) ++ [" "%char]) ∧
  leo_value fuel (a ++ "."%char :: b)
  = Done (replicate (10 - length a) " "%char ++ a ++
          "."%char :: take 3 (b ++ replicate 3 "0"%char)).
Proof.
  intros Ha Hfuel. unfold gps_coord, leo_value.
  rewrite !fixed_field_run by (done || lia). split; [|done].
  change (mbind ?k (Done ?x)) with (k x). cbv beta.
  by rewrite <- !app_assoc.
Qed.

(** X11. The width of a field. A coordinate of the GPS report takes 17
    characters with the '.' in column 9 (counted from 0) exactly when the
    integer part of the text, sign included, has at most 9 characters; a
    longer integer part makes the field longer by the excess, and moves
    what follows it on the line. The same for a vector component of the
    results file, with 14 characters and 10. *)
Theorem field_width fuel a b :
  "."%char ∉ a → (10 ≤ fuel)%nat →
  (∃ out, gps_coord fuel (a ++ "."%char :: b) = Done out ∧
     length out = (9 `max` length a + 8)%nat ∧
     first_index "." out = Some (9 `max` length a)%nat ∧
     (length out = 17%nat ↔ (length a ≤ 9)%nat)) ∧
  (∃ out, leo_value fuel (a ++ "."%char :: b) = Done out ∧
     length out = (10 `max` length a + 4)%nat ∧
     first_index "." out = Some (10 `max` length a)%nat ∧
     (length out = 14%nat ↔ (length a ≤ 10)%nat)).
Proof.
  intros Ha Hfuel. unfold gps_coord, leo_value.
  rewrite !fixed_field_run by (done || lia).
  change (mbind ?k (Done ?x)) with (k x). cbv beta.
  assert (Hblank : ∀ n, "."%char ∉ replicate n " "%char ++ a).
  { intros n. rewrite not_elem_of_app. split; [|done].
    intros [H _]%elem_of_replicate. discriminate H. }
  split; eexists; (split; [reflexivity|]).
  - assert (Hlen : length
              ((replicate (9 - length a) " "%char ++ a ++
                "."%char :: take (7 - 1) (b ++ replicate (7 - 1) "0"%char))
               ++ [" "%char]) = (9 `max` length a + 8)%nat).
    { rewrite !length_app, length_replicate. cbn [length].
      rewrite length_take, length_app, length_replicate. lia. }
    split_and!; [exact Hlen | | lia].
    rewrite <- !app_assoc, <- app_comm_cons, (app_assoc (replicate _ _) a).
    rewrite first_index_app by apply Hblank.
    rewrite length_app, length_replicate. f_equal. lia.
  - assert (Hlen : length
              (replicate (10 - length a) " "%char ++ a ++
               "."%char :: take (4 - 1) (b ++ replicate (4 - 1) "0"%char))
              = (10 `max` length a + 4)%nat).
    { rewrite !length_app, length_replicate. cbn [length].
      rewrite length_take, length_app, length_replicate. lia. }
    split_and!; [exact Hlen | | lia].
    rewrite app_assoc. rewrite first_index_app by apply Hblank.
    rewrite length_app, length_replicate. f_equal. lia.
Qed.

(** X12. The loops of a field end, and a field fails in one way only:
    given ten iterations, for every text the formatter raises ValueError
    when the text has no '.' (the text of an integer, of 1e+16, of inf or
    nan), and returns otherwise. *)
Theorem field_fails_iff fuel s :
  (10 ≤ fuel)%nat →
  (gps_coord fuel s = ValueError ↔ "."%char ∉ s) ∧
  (leo_value fuel s = ValueError ↔ "."%char ∉ s) ∧
  ("."%char ∈ s → ∃ out out', gps_coord fuel s = Done out ∧ leo_value fuel s = Done out').
Proof.
  intros Hfuel.
  assert (Hdone : "."%char ∈ s →
            ∃ out out', gps_coord fuel s = Done out ∧ leo_value fuel s = Done out').
  { intros (a & b & -> & Ha)%text_split. unfold gps_coord, leo_value.
    rewrite !fixed_field_run by (done || lia). by eexists _, _. }
  split_and!; [| |done].
  - split.
    + intros Herr Hin. destruct (Hdone Hin) as (out & _ & Hout & _). congruence.
    + intros Hs. unfold gps_coord. by rewrite fixed_field_no_dot.
  - split.
    + intros Herr Hin. destruct (Hdone Hin) as (_ & out & _ & Hout). congruence.
    + intros Hs. unfold leo_value. by rewrite fixed_field_no_dot.
Qed.

(** ** The clock bias *)

Lemma mantissa_cut (m : list ascii) :
  (if decide (7 < length ("."%char :: m))%nat then take 7 ("."%char :: m)
   else "."%char :: m) = "."%char :: take 6 m.
Proof.
  destruct (decide (7 < length ("."%char :: m))%nat) as [H|H]; simpl in H; [done|].
  rewrite take_ge by lia. done.
Qed.

(** X13. The clock bias of the results file. On a text in decimal
    notation it is a field like the others, with 10 decimals and an
    integer part padded to 7. On a text with an exponent (mantissa [a],
    '.', decimals [m], then 'e' and the exponent) the decimals are cut to
    the first 6 but never filled up, and the exponent is kept as it is:
    digits of a small bias are not lost, and the field is as long as
    mantissa and exponent make it. A text with no '.', with an exponent
    (as for 1e-07) or without, has no field: ValueError. *)
Theorem clock_format fuel a :
  "."%char ∉ a → (11 ≤ fuel)%nat →
  (∀ b, "e"%char ∉ a ++ "."%char :: b →
     leo_clock fuel (a ++ "."%char :: b)
     = Done (replicate (7 - length a) " "%char ++ a ++
             "."%char :: take 10 (b ++ replicate 10 "0"%char))) ∧
  (∀ m x, "e"%char ∉ a → "e"%char ∉ m →
     leo_clock fuel (a ++ "."%char :: m ++ "e"%char :: x)
     = Done (replicate (7 - length a) " "%char ++ a ++
             "."%char :: take 6 m ++ "e"%char :: x)) ∧
  (∀ s, "."%char ∉ s → leo_clock fuel s = ValueError).
Proof.
  intros Ha Hfuel. split_and!.
  - intros b He. unfold leo_clock. rewrite index_app by done.
    change (mbind ?k (Done ?x)) with (k x). cbv beta.
    rewrite bool_decide_eq_false_2 by done.
    pose proof (fixed_field_run 11 7 fuel a b Ha ltac:(lia) ltac:(lia) ltac:(lia)) as H.
    unfold fixed_field in H. rewrite index_app in H by done. exact H.
  - intros m x Hea Hem. unfold leo_clock. rewrite index_app by done.
    change (mbind ?k (Done ?x)) with (k x). cbv beta.
    rewrite bool_decide_eq_true_2.
    2:{ rewrite elem_of_app, elem_of_cons, elem_of_app, elem_of_cons. auto. }
    assert (Hedot : index "e" (a ++ "."%char :: m ++ "e"%char :: x)
                    = Done (length (a ++ "."%char :: m))).
    { rewrite (app_comm_cons m), app_assoc. apply index_app.
      rewrite not_elem_of_app, not_elem_of_cons. split_and!; done. }
    rewrite Hedot. change (mbind ?k (Done ?x)) with (k x). cbv beta.
    rewrite take_app_length.
    replace (take (length (a ++ "."%char :: m)) (a ++ "."%char :: m ++ "e"%char :: x))
      with (a ++ "."%char :: m).
    2:{ rewrite (app_comm_cons m _ "."%char), app_assoc. by rewrite take_app_length. }
    replace (drop (length (a ++ "."%char :: m)) (a ++ "."%char :: m ++ "e"%char :: x))
      with ("e"%char :: x).
    2:{ rewrite (app_comm_cons m _ "."%char), app_assoc. by rewrite drop_app_length. }
    rewrite drop_app_length, mantissa_cut.
    change (mbind ?k (Done ?x)) with (k x). cbv beta.
    rewrite <- app_comm_cons.
    change (mret ?x ≫= ?k) with (k x). cbv beta.
    rewrite pad_left_run by (done || lia). reflexivity.
  - intros s Hs. unfold leo_clock. apply index_ValueError in Hs. by rewrite Hs.
Qed.

(** ** A line of the GPS report *)

Lemma prn_label_length p : 0 ≤ p < 100 → length (prn_label p) = 2%nat.
Proof.
  intros Hp.
  assert (H : Forall (λ n : nat, length (prn_label (Z.of_nat n)) = 2%nat) (seq 0 100))
    by compute_done.
  rewrite Forall_forall in H. specialize (H (Z.to_nat p)).
  rewrite Z2Nat.id in H by lia. apply H, elem_of_seq. lia.
Qed.

Lemma gps_coord_fits fuel s :
  (10 ≤ fuel)%nat → fits 9 s →
  ∃ out, gps_coord fuel s = Done out ∧ length out = 17%nat.
Proof.
  intros Hfuel (a & b & -> & Ha & Hlen). unfold gps_coord.
  rewrite fixed_field_run by (done || lia). eexists. split; [reflexivity|].
  rewrite !length_app, length_replicate. cbn [length].
  rewrite length_take, length_app, length_replicate. lia.
Qed.

Lemma coord_loop_run fuel line values :
  (10 ≤ fuel)%nat → Forall (fits 9) values →
  ∃ fields,
    coord_loop fuel line values = Done (line ++ concat fields) ∧
    Forall2 (λ s out, gps_coord fuel s = Done out ∧ length out = 17%nat) values fields.
Proof.
  intros Hfuel Hall. revert line.
  induction Hall as [|s values Hs _ IH]; intros line.
  - exists []. split; [|constructor]. simpl. by rewrite app_nil_r.
  - destruct (gps_coord_fits fuel s Hfuel Hs) as (out & Hout & Hlen).
    destruct (IH (line ++ out)) as (fields & Hrun & Hfields).
    exists (out :: fields). split; [|by constructor].
    cbn [coord_loop]. rewrite Hout.
    change (mbind ?k (Done ?x)) with (k x). cbv beta.
    rewrite Hrun. simpl. by rewrite <- app_assoc.
Qed.

(** Field [k] of a run of fields of one width, and what follows the run. *)
Lemma concat_chunk {A} n (fields : list (list A)) rest k out :
  Forall (λ out, length out = n) fields → fields !! k = Some out →
  take n (drop (n * k) (concat fields ++ rest)) = out.
Proof.
  intros Hall. revert k. induction Hall as [|f fields Hf _ IH]; intros k Hk; [done|].
  cbn [concat]. rewrite <- app_assoc. destruct k as [|k]; simpl in Hk.
  - injection Hk as ->. rewrite Nat.mul_0_r, drop_0.
    by rewrite take_app_length'.
  - replace (n * S k)%nat with (length f + n * k)%nat by lia.
    rewrite drop_app_add. by apply IH.
Qed.

Lemma concat_rest {A} n (fields : list (list A)) rest :
  Forall (λ out, length out = n) fields →
  drop (n * length fields) (concat fields ++ rest) = rest.
Proof.
  intros Hall. induction Hall as [|f fields Hf _ IH].
  - by rewrite Nat.mul_0_r.
  - cbn [concat length]. rewrite <- app_assoc.
    replace (n * S (length fields))%nat with (length f + n * length fields)%nat by lia.
    by rewrite drop_app_add.
Qed.

Lemma gps_clock_fits fuel b :
  (2 ≤ fuel)%nat → fits 2 b →
  ∃ out, gps_clock fuel b = Done out ∧
    first_index "." out = Some 2%nat ∧ ∃ blanks, out = replicate blanks " "%char ++ b.
Proof.
  intros Hfuel (a & r & -> & Ha & Hlen). unfold gps_clock.
  rewrite index_app by done. change (mbind ?k (Done ?x)) with (k x). cbv beta.
  rewrite pad_left_run by (done || lia). eexists. split; [reflexivity|].
  cbn [fst]. split; [|by eexists].
  rewrite app_assoc, first_index_app.
  - rewrite length_app, length_replicate. f_equal. lia.
  - rewrite not_elem_of_app. split; [|done].
    intros [H _]%elem_of_replicate. discriminate H.
Qed.

(** X14. A satellite line of the GPS report is laid out in columns
    whenever its values fit (PRN 0 .. 99, the six coordinates with a '.'
    and at most 9 characters before it, the clock bias with at most 2, as
    ['%.9E'] gives them): 'G', the PRN on two digits and a blank, then
    coordinate [k] in the 17 columns from [4 + 17 k], then the clock bias
    with its '.' two columns on, a blank and the end of the line. *)
Theorem gps_line_layout fuel p position velocity b :
  (10 ≤ fuel)%nat → 0 ≤ p < 100 →
  Forall (fits 9) (position ++ velocity) → fits 2 b →
  ∃ out clock,
    gps_line fuel p position velocity b = Done out ∧
    take 4 out = "G"%char :: prn_label p ++ [" "%char] ∧
    (∀ k s, (position ++ velocity) !! k = Some s →
       gps_coord fuel s = Done (take 17 (drop (4 + 17 * k) out))) ∧
    gps_clock fuel b = Done clock ∧
    first_index "." clock = Some 2%nat ∧
    drop (4 + 17 * length (position ++ velocity)) out
    = clock ++ [" "%char; "010"%char].
Proof.
  intros Hfuel Hp Hall Hb. apply Forall_app in Hall as [Hpos Hvel].
  set (line := "G"%char :: prn_label p ++ [" "%char]).
  assert (Hline : length line = 4%nat).
  { unfold line. cbn [length]. rewrite length_app, prn_label_length by done. done. }
  destruct (coord_loop_run fuel line position Hfuel Hpos) as (f1 & Hrun1 & Hf1).
  destruct (coord_loop_run fuel (line ++ concat f1) velocity Hfuel Hvel)
    as (f2 & Hrun2 & Hf2).
  destruct (gps_clock_fits fuel b ltac:(lia) Hb) as (clock & Hclock & Hdot & _).
  pose proof (Forall2_app Hf1 Hf2) as Hfields.
  assert (Hwide : Forall (λ out, length out = 17%nat) (f1 ++ f2)).
  { apply Forall_forall. intros out Hout.
    apply list_elem_of_lookup in Hout as [k Hk].
    destruct (Forall2_lookup_r _ _ _ _ _ Hfields Hk) as (s & _ & _ & Hlen). done. }
  exists (line ++ concat (f1 ++ f2) ++ clock ++ [" "%char; "010"%char]), clock.
  split_and!; [| | |done|done|].
  - unfold gps_line. fold line. rewrite Hrun1.
    change (mbind ?k (Done ?x)) with (k x). cbv beta. rewrite Hrun2.
    change (mbind ?k (Done ?x)) with (k x). cbv beta. rewrite Hclock.
    change (mbind ?k (Done ?x)) with (k x). cbv beta.
    change (mret ?x) with (Done x). by rewrite concat_app, <- !app_assoc.
  - by rewrite take_app_length'.
  - intros k s Hk.
    destruct (Forall2_lookup_l _ _ _ _ _ Hfields Hk) as (out & Hout & Hs & _).
    rewrite Hs. f_equal. symmetry.
    replace (4 + 17 * k)%nat with (length line + 17 * k)%nat by lia.
    rewrite drop_app_add. by apply concat_chunk.
  - replace (4 + 17 * length (position ++ velocity))%nat
      with (length line + 17 * length (f1 ++ f2))%nat
      by (rewrite (Forall2_length _ _ _ Hfields); lia).
    rewrite drop_app_add. by apply concat_rest.
Qed.

Lemma fits_first_index n s i :
  first_index "." s = Some i → (i ≤ n)%nat → fits n s.
Proof.
  intros (a & b & -> & Ha & ->)%first_index_Some Hi. by exists a, b.
Qed.

(** ** Fields of sample values *)

Lemma field_format_witness :
  gps_coord 10 (text "-12345" ++ "."%char :: text "6789")
  = Done (replicate (9 - length (text "-12345")) " "%char ++ text "-12345" ++
          "."%char :: take 6 (text "6789" ++ replicate 6 "0"%char) ++ [" "%char]) ∧
  leo_value 10 (text "-12345" ++ "."%char :: text "6789")
  = Done (replicate (10 - length (text "-12345")) " "%char ++ text "-12345" ++
          "."%char :: take 3 (text "6789" ++ replicate 3 "0"%char)).
Proof.
  apply (field_format 10 (text "-12345") (text "6789")); [compute_done | lia].
Defined.

Lemma field_width_witness :
  (∃ out, gps_coord 10 (text "-1234567890" ++ "."%char :: text "5") = Done out ∧
     length out = (9 `max` length (text "-1234567890") + 8)%nat ∧
     first_index "." out = Some (9 `max` length (text "-1234567890"))%nat ∧
     (length out = 17%nat ↔ (length (text "-1234567890") ≤ 9)%nat)) ∧
  (∃ out, leo_value 10 (text "-1234567890" ++ "."%char :: text "5") = Done out ∧
     length out = (10 `max` length (text "-1234567890") + 4)%nat ∧
     first_index "." out = Some (10 `max` length (text "-1234567890"))%nat ∧
     (length out = 14%nat ↔ (length (text "-1234567890") ≤ 10)%nat)).
Proof.
  apply (field_width 10 (text "-1234567890") (text "5")); [compute_done | lia].
Defined.

Lemma field_fails_iff_witness :
  (gps_coord 10 (text "1e+16") = ValueError ↔ "."%char ∉ text "1e+16") ∧
  (leo_value 10 (text "1e+16") = ValueError ↔ "."%char ∉ text "1e+16") ∧
  ("."%char ∈ text "1e+16" →
   ∃ out out', gps_coord 10 (text "1e+16") = Done out ∧
               leo_value 10 (text "1e+16") = Done out').
Proof. apply (field_fails_iff 10 (text "1e+16")). lia. Defined.

Lemma clock_format_witness :
  (∀ b, "e"%char ∉ text "0" ++ "."%char :: b →
     leo_clock 11 (text "0" ++ "."%char :: b)
     = Done (replicate (7 - length (text "0")) " "%char ++ text "0" ++
             "."%char :: take 10 (b ++ replicate 10 "0"%char))) ∧
  (∀ m x, "e"%char ∉ text "0" → "e"%char ∉ m →
     leo_clock 11 (text "0" ++ "."%char :: m ++ "e"%char :: x)
     = Done (replicate (7 - length (text "0")) " "%char ++ text "0" ++
             "."%char :: take 6 m ++ "e"%char :: x)) ∧
  (∀ s, "."%char ∉ s → leo_clock 11 s = ValueError).
Proof. apply (clock_format 11 (text "0")); [compute_done | lia]. Defined.

Lemma gps_line_layout_witness :
  let position := [text "12345.678"; text "-2.5"; text "0.1234567"] in
  let velocity := [text "1.0"; text "2.0"; text "-3.25"] in
  let b := text "-1.234567890E-04" in
  ∃ out clock,
    gps_line 10 7 position velocity b = Done out ∧
    take 4 out = "G"%char :: prn_label 7 ++ [" "%char] ∧
    (∀ k s, (position ++ velocity) !! k = Some s →
       gps_coord 10 s = Done (take 17 (drop (4 + 17 * k) out))) ∧
    gps_clock 10 b = Done clock ∧
    first_index "." clock = Some 2%nat ∧
    drop (4 + 17 * length (position ++ velocity)) out
    = clock ++ [" "%char; "010"%char].
Proof.
  intros position velocity b.
  apply (gps_line_layout 10 7 position velocity b).
  - lia.
  - lia.
  - repeat (apply Forall_cons; split;
            [eapply fits_first_index; [vm_compute; reflexivity | lia]|]).
    apply Forall_nil_2.
  - eapply fits_first_index; [vm_compute; reflexivity | lia].
Defined.
